(** * red-tape: the fault-injecting reverse proxy of [pkg/proxy/proxy.go]

    A shallow embedding of [MakeRoundTripper] and [MakeProxy] and of the
    parts of the Go runtime and libraries they call, followed by the
    properties of the package that the specification states. *)

From Stdlib Require Import ZArith QArith Bool List String Ascii Lia.
From Stdlib Require Import Floats.SpecFloat.
Import ListNotations.

Local Open Scope Z_scope.

(** ** float64 and int64, as the Go runtime has them *)

(** A [float64] is an IEEE 754 binary64 value: 53 bits of precision,
    infinities at exponent 1024. *)
Definition float64 : Type := spec_float.

Definition f64_prec : Z := 53.
Definition f64_emax : Z := 1024.

(** The values a Go variable of type float64 can hold. *)
Definition valid_float64 (x : float64) : bool := valid_binary f64_prec f64_emax x.

Definition f64_zero : float64 := S754_zero false.

(** Go's [x <= y], [x < y] and [x > y] on float64: false as soon as one
    side is NaN. *)
Definition f64_le (x y : float64) : bool := SFleb x y.
Definition f64_lt (x y : float64) : bool := SFltb x y.
Definition f64_gt (x y : float64) : bool := SFltb y x.

(** Go's [x / y] on float64 (round to nearest even). *)
Definition f64_div (x y : float64) : float64 := SFdiv f64_prec f64_emax x y.

(** The float64 nearest to an integer (exact below 2^53); used for
    writing down constants. *)
Definition f64_of_Z (z : Z) : float64 := binary_normalize f64_prec f64_emax z 0 false.

(** The float64 [m * 2^e]. *)
Definition f64_ldexp (m e : Z) : float64 := binary_normalize f64_prec f64_emax m e false.

(** The rational a finite float64 denotes (0 for NaN and the infinities,
    which denote none). *)
Definition f64_value (x : float64) : Q :=
  match x with
  | S754_finite s m e =>
      match e with
      | Zneg k => Qmake (cond_Zopp s (Zpos m)) (2 ^ k)%positive
      | _ => inject_Z (cond_Zopp s (Zpos m) * 2 ^ e)
      end
  | _ => 0%Q
  end.

(** The integer part of a float64, rounding toward zero; NaN and the
    infinities have none. *)
Definition f64_trunc (x : float64) : option Z :=
  match x with
  | S754_zero _ => Some 0
  | S754_finite s m e => Some (cond_Zopp s (Z.shiftl (Zpos m) e))
  | _ => None
  end.

Definition int64_min : Z := - 2 ^ 63.
Definition int64_max : Z := 2 ^ 63 - 1.

Definition in_int64 (z : Z) : bool := (int64_min <=? z) && (z <=? int64_max).

(** Two's complement wrap-around of int64 arithmetic. *)
Definition wrap64 (z : Z) : Z := (z + 2 ^ 63) mod 2 ^ 64 - 2 ^ 63.

Definition int64_mul (a b : Z) : Z := wrap64 (a * b).

(** ** Strings, errors and URLs *)

Local Open Scope string_scope.

(** Go's [error] values that reach this package: [errors.New] messages
    and the [url.Error] that [url.Parse] wraps its failures in. *)
Inductive Error : Type :=
  | errors_New (msg : string)
  | url_Error (Op URL : string) (Err : Error).

(** Go's [(T, error)] results of fallible calls. *)
Inductive result (A : Type) : Type :=
  | Ok (a : A)
  | Err (e : Error).
Arguments Ok {A} a.
Arguments Err {A} e.

Definition is_Ok {A : Type} (r : result A) : bool :=
  match r with Ok _ => true | Err _ => false end.

Record Userinfo : Type := {
  username : string;
  password : string;
  passwordSet : bool
}.

(** [net/url.URL]. *)
Record URL : Type := {
  Scheme : string;
  Opaque : string;
  User : option Userinfo;
  Host : string;
  Path : string;
  RawPath : string;
  OmitHost : bool;
  ForceQuery : bool;
  RawQuery : string;
  Fragment : string;
  RawFragment : string
}.

Definition URL_zero : URL :=
  {| Scheme := ""; Opaque := ""; User := None; Host := ""; Path := "";
     RawPath := ""; OmitHost := false; ForceQuery := false; RawQuery := "";
     Fragment := ""; RawFragment := "" |}.

(** The [IsAbs] method of a URL: it is absolute when it has a scheme. *)
Definition IsAbs (u : URL) : bool := negb (Scheme u =? "").

(** [strings.Cut] with a one-byte separator: the text before and after
    its first occurrence, and whether it occurs. *)
Fixpoint strings_Cut (s : string) (sep : ascii) : string * string * bool :=
  match s with
  | EmptyString => ("", "", false)
  | String c rest =>
      if Ascii.eqb c sep then ("", rest, true)
      else let '(before, after, found) := strings_Cut rest sep in
           (String c before, after, found)
  end.

Definition strings_HasPrefix (s p : string) : bool := String.prefix p s.

Definition strings_HasSuffix (s suf : string) : bool :=
  (String.length suf <=? String.length s)%nat
  && (substring (String.length s - String.length suf) (String.length suf) s =? suf).

Fixpoint strings_Count (s : string) (c : ascii) : nat :=
  match s with
  | EmptyString => 0%nat
  | String d rest => ((if Ascii.eqb d c then 1 else 0) + strings_Count rest c)%nat
  end.

Definition strings_Contains (s : string) (c : ascii) : bool :=
  negb (strings_Count s c =? 0)%nat.

Definition byte_in (lo hi c : ascii) : bool :=
  (nat_of_ascii lo <=? nat_of_ascii c)%nat && (nat_of_ascii c <=? nat_of_ascii hi)%nat.

Definition lower_byte (c : ascii) : ascii :=
  if byte_in "A" "Z" c then ascii_of_nat (nat_of_ascii c + 32) else c.

Fixpoint strings_ToLower (s : string) : string :=
  match s with
  | EmptyString => ""
  | String c rest => String (lower_byte c) (strings_ToLower rest)
  end.

(** [stringContainsCTLByte]: a byte below space, or DEL. *)
Fixpoint stringContainsCTLByte (s : string) : bool :=
  match s with
  | EmptyString => false
  | String c rest =>
      (nat_of_ascii c <? 32)%nat || (nat_of_ascii c =? 127)%nat
      || stringContainsCTLByte rest
  end.

(** [getScheme]: the loop over [rawURL], at index [i] with [rest] still
    to read. *)
Fixpoint getScheme_from (rawURL : string) (i : nat) (rest : string)
  : result (string * string) :=
  match rest with
  | EmptyString => Ok ("", rawURL)
  | String c rest' =>
      if byte_in "a" "z" c || byte_in "A" "Z" c then
        getScheme_from rawURL (S i) rest'
      else if byte_in "0" "9" c || Ascii.eqb c "+" || Ascii.eqb c "-" || Ascii.eqb c "." then
        if (i =? 0)%nat then Ok ("", rawURL)
        else getScheme_from rawURL (S i) rest'
      else if Ascii.eqb c ":" then
        if (i =? 0)%nat then Err (errors_New "missing protocol scheme")
        else Ok (substring 0 i rawURL, rest')
      else Ok ("", rawURL)
  end.

Definition getScheme (rawURL : string) : result (string * string) :=
  getScheme_from rawURL 0 rawURL.

(** ** HTTP messages *)

(** [http.Request], with the fields a proxy reads or rewrites. *)
Record Request : Type := {
  Method : string;
  Req_URL : URL;
  Req_Host : string;
  Header : list (string * string);
  Body : string
}.

(** [http.Response]. *)
Record Response : Type := {
  StatusCode : Z;
  Resp_Header : list (string * string);
  Resp_Body : string
}.

(** What [RoundTrip] returns: Go's pair [(resp, err)], either of which
    may be nil. *)
Definition RoundTripResult : Type := (option Response * option Error)%type.

(** [httputil.ProxyRequest]: the request the proxy received and the one
    it is about to send. *)
Record ProxyRequest : Type := {
  In : Request;
  Out : Request
}.

(** Levels and arguments of the log calls the package makes. *)
Inductive Level : Type := InfoLevel | DebugLevel.

Inductive LogArg : Type :=
  | ArgDuration (d : Z)
  | ArgString (s : string).

(** ** The environment of the package

    What the package reaches outside its own file: the network behind
    the transports, the process-wide random source that
    [distuv.Exponential] draws from when its [Src] is nil, the loggers,
    and the library routines whose text is not part of this repository. *)
Class Env : Type := {
  (** the state of the network and servers that a transport talks to *)
  Net : Type;
  (** [http.RoundTripper] as implemented outside this package *)
  http_DefaultTransport : Request -> Net -> RoundTripResult * Net;
  (** the package-level source of the rand package behind [distuv]:
      its state, and [rand.ExpFloat64] on it *)
  Source : Type;
  rand_ExpFloat64 : Source -> float64 * Source;
  (** [log.Logger] values and [log.Default()] *)
  log_Logger : Type;
  log_Default : log_Logger;
  (** the result of converting to int64 a float64 that int64 cannot
      represent, which Go leaves to the implementation *)
  int64_of_unrepresentable : float64 -> Z;
  (** [net/url]: [parseAuthority], [setPath] and [setFragment], which
      decode percent-escapes and split user information from the host *)
  url_parseAuthority : string -> result (option Userinfo * string);
  url_setPath : string -> result (string * string);
  url_setFragment : string -> result (string * string);
  (** [httputil]: [joinURLPath], the path and raw path of a request
      below a target *)
  joinURLPath : URL -> URL -> string * string
}.

(** [http.RoundTripper], as a caller supplies it in the configuration. *)
Definition RoundTripper `{Env} : Type := Request -> Net -> RoundTripResult * Net.

Section Package.
Context `{E : Env}.

(** *** net/url.Parse, of the Go standard library *)

(** [parse(rawURL, viaRequest)] at [viaRequest = false], the only way
    [Parse] calls it. *)
Definition url_parse (rawURL : string) : result URL :=
  if stringContainsCTLByte rawURL then
    Err (errors_New "net/url: invalid control character in URL")
  else if rawURL =? "*" then
    Ok {| Scheme := ""; Opaque := ""; User := None; Host := ""; Path := "*";
          RawPath := ""; OmitHost := false; ForceQuery := false; RawQuery := "";
          Fragment := ""; RawFragment := "" |}
  else
    match getScheme rawURL with
    | Err e => Err e
    | Ok (scheme, rest) =>
        let scheme := strings_ToLower scheme in
        let '(rest, forceQuery, rawQuery) :=
          if strings_HasSuffix rest "?" && (strings_Count rest "?" =? 1)%nat then
            (substring 0 (String.length rest - 1) rest, true, "")
          else
            let '(before, after, _) := strings_Cut rest "?" in
            (before, false, after) in
        let rooted := strings_HasPrefix rest "/" in
        if negb rooted && negb (scheme =? "") then
          (* a rootless path after a scheme is kept opaque *)
          Ok {| Scheme := scheme; Opaque := rest; User := None; Host := "";
                Path := ""; RawPath := ""; OmitHost := false;
                ForceQuery := forceQuery; RawQuery := rawQuery;
                Fragment := ""; RawFragment := "" |}
        else if negb rooted
                && strings_Contains (fst (fst (strings_Cut rest "/"))) ":" then
          Err (errors_New "first path segment in URL cannot contain colon")
        else
          let finish (user : option Userinfo) (host rest : string) (omit : bool) :=
            match url_setPath rest with
            | Err e => Err e
            | Ok (path, rawPath) =>
                Ok {| Scheme := scheme; Opaque := ""; User := user; Host := host;
                      Path := path; RawPath := rawPath; OmitHost := omit;
                      ForceQuery := forceQuery; RawQuery := rawQuery;
                      Fragment := ""; RawFragment := "" |}
            end in
          if (negb (scheme =? "") || negb (strings_HasPrefix rest "///"))
             && strings_HasPrefix rest "//" then
            let after := substring 2 (String.length rest - 2) rest in
            let '(authority, tail, found) := strings_Cut after "/" in
            let rest := if found then String "/" tail else "" in
            match url_parseAuthority authority with
            | Err e => Err e
            | Ok (user, host) => finish user host rest false
            end
          else
            finish None "" rest (negb (scheme =? "") && rooted)
    end.

(** [Parse(rawURL)]: the fragment is cut off and decoded apart; every
    failure is wrapped in a [url.Error]. *)
Definition url_Parse (rawURL : string) : result URL :=
  let '(u, frag, _) := strings_Cut rawURL "#" in
  match url_parse u with
  | Err e => Err (url_Error "parse" u e)
  | Ok url =>
      if frag =? "" then Ok url
      else
        match url_setFragment frag with
        | Err e => Err (url_Error "parse" rawURL e)
        | Ok (fragment, rawFragment) =>
            Ok {| Scheme := Scheme url; Opaque := Opaque url; User := User url;
                  Host := Host url; Path := Path url; RawPath := RawPath url;
                  OmitHost := OmitHost url; ForceQuery := ForceQuery url;
                  RawQuery := RawQuery url;
                  Fragment := fragment; RawFragment := rawFragment |}
        end
  end.

(** *** Effects: the random source, the network, and what can be observed *)

(** What a request's handling does that can be seen from outside, in
    the order it happens. *)
Inductive Event : Type :=
  | EvLog (lg : log_Logger) (lvl : Level) (msg : string) (args : list LogArg)
  | EvSleep (d : Z)
  | EvRoundTrip (r : Request).

Record World : Type := {
  rand_src : Source;
  net : Net;
  trace : list Event
}.

(** Computations of the package: a state monad over [World]. *)
Definition M (A : Type) : Type := World -> A * World.

Definition ret {A : Type} (a : A) : M A := fun w => (a, w).

Definition bind {A B : Type} (m : M A) (k : A -> M B) : M B :=
  fun w => let (a, w') := m w in k a w'.

Notation "x <- m ;; k" := (bind m (fun x => k))
  (at level 61, m at next level, right associativity).
Notation "m ;;; k" := (bind m (fun _ => k))
  (at level 61, right associativity).

Definition emit (e : Event) : M unit :=
  fun w => (tt, {| rand_src := rand_src w; net := net w; trace := trace w ++ [e] |}).

(** [logger.Info] and [logger.Debug]: a line on the logger, nothing else. *)
Definition log_Info (lg : log_Logger) (msg : string) (args : list LogArg) : M unit :=
  emit (EvLog lg InfoLevel msg args).
Definition log_Debug (lg : log_Logger) (msg : string) (args : list LogArg) : M unit :=
  emit (EvLog lg DebugLevel msg args).

(** [time.Sleep]. *)
Definition time_Sleep (d : Z) : M unit := emit (EvSleep d).

(** A call of [t.RoundTrip(r)] on a transport from outside the package. *)
Definition call_RoundTrip (t : RoundTripper) (r : Request) : M RoundTripResult :=
  fun w =>
    let (res, n') := t r (net w) in
    (res, {| rand_src := rand_src w; net := n'; trace := trace w ++ [EvRoundTrip r] |}).

(** [distuv.Exponential] with its [Src] left nil, as [MakeRoundTripper]
    builds both of its generators. *)
Record Exponential : Type := { Rate : float64 }.

(** [Exponential.Rand]: one draw of the package-level source, divided by
    the rate. *)
Definition Exponential_Rand (e : Exponential) : M float64 :=
  fun w =>
    let (rnd, s') := rand_ExpFloat64 (rand_src w) in
    (f64_div rnd (Rate e), {| rand_src := s'; net := net w; trace := trace w |}).

(** *** time.Duration *)

Definition time_Millisecond : Z := 1000000.

(** The conversion [time.Duration(s)] of a float64 [s]: its integer part
    when int64 holds it. *)
Definition Duration_of_float64 (s : float64) : Z :=
  match f64_trunc s with
  | Some z => if in_int64 z then z else wrap64 (int64_of_unrepresentable s)
  | None => wrap64 (int64_of_unrepresentable s)
  end.

(** *** The package *)

Record ProxyConfig : Type := {
  DestURL : string;
  ProbDrop : float64;
  PreDelayRate : float64;
  PreDelayMax : float64;
  PostDelayRate : float64;
  PostDelayMax : float64;
  Seed : Z;
  Transport : option RoundTripper;
  Logger : option log_Logger
}.

(** The closure [preDelay] of [MakeRoundTripper], over the variables it
    captures: the configuration and the generator [preRng]. *)
Definition preDelay (cfg : ProxyConfig) (preRng : Exponential) : M Z :=
  if f64_le (PreDelayRate cfg) f64_zero then ret 0
  else
    s <- Exponential_Rand preRng ;;
    let s := if f64_gt s (PreDelayMax cfg) then PreDelayMax cfg else s in
    ret (int64_mul (Duration_of_float64 s) time_Millisecond).

(** The closure [postDelay], over the configuration and [postRng]. *)
Definition postDelay (cfg : ProxyConfig) (postRng : Exponential) : M Z :=
  if f64_le (PostDelayRate cfg) f64_zero then ret 0
  else
    s <- Exponential_Rand postRng ;;
    let s := if f64_gt s (PostDelayMax cfg) then PostDelayMax cfg else s in
    ret (int64_mul (Duration_of_float64 s) time_Millisecond).

(** [roundTripperFunc]: a function used as an [http.RoundTripper]. *)
Definition roundTripperFunc : Type := Request -> M RoundTripResult.

Definition RoundTrip (rt : roundTripperFunc) (r : Request) : M RoundTripResult := rt r.

Definition MakeRoundTripper (cfg : ProxyConfig) : result roundTripperFunc :=
  let logger := match Logger cfg with Some l => l | None => log_Default end in
  let t := match Transport cfg with Some t => t | None => http_DefaultTransport end in
  let preRng := {| Rate := PreDelayRate cfg |} in
  let postRng := {| Rate := PostDelayRate cfg |} in
  Ok (fun r =>
    log_Info logger "Incoming request" [] ;;;
    d <- preDelay cfg preRng ;;
    log_Debug logger "Sleeping for %s before request." [ArgDuration d] ;;;
    time_Sleep d ;;;
    (* Should the request be dropped?  TODO - Fill this in... *)
    log_Debug logger "Sending request to %q" [ArgString (DestURL cfg)] ;;;
    res <- call_RoundTrip t r ;;
    d <- postDelay cfg postRng ;;
    log_Debug logger "Sleeping for %s after response returned." [ArgDuration d] ;;;
    time_Sleep d ;;;
    log_Debug logger "Returning response to client." [] ;;;
    ret res).

(** [rewriteRequestURL] of [httputil]: the request takes the target's
    scheme and host, its path goes below the target's, and the two
    queries are joined. *)
Definition rewriteRequestURL (req : Request) (target : URL) : Request :=
  let u := Req_URL req in
  let (path, rawPath) := joinURLPath target u in
  let query :=
    if (RawQuery target =? "") || (RawQuery u =? "") then RawQuery target ++ RawQuery u
    else RawQuery target ++ "&" ++ RawQuery u in
  {| Method := Method req;
     Req_URL := {| Scheme := Scheme target; Opaque := Opaque u; User := User u;
                   Host := Host target; Path := path; RawPath := rawPath;
                   OmitHost := OmitHost u; ForceQuery := ForceQuery u;
                   RawQuery := query;
                   Fragment := Fragment u; RawFragment := RawFragment u |};
     Req_Host := Req_Host req; Header := Header req; Body := Body req |}.

(** The assignment [r.Out.Host = h]. *)
Definition Set_Out_Host (r : ProxyRequest) (h : string) : ProxyRequest :=
  {| In := In r;
     Out := {| Method := Method (Out r); Req_URL := Req_URL (Out r); Req_Host := h;
               Header := Header (Out r); Body := Body (Out r) |} |}.

(** [ProxyRequest.SetURL]: route the outbound request to the target and
    clear its [Host]. *)
Definition SetURL (r : ProxyRequest) (target : URL) : ProxyRequest :=
  Set_Out_Host {| In := In r; Out := rewriteRequestURL (Out r) target |} "".

(** [httputil.ReverseProxy], with the two fields [MakeProxy] sets. *)
Record ReverseProxy : Type := {
  RP_Transport : roundTripperFunc;
  Rewrite : ProxyRequest -> ProxyRequest
}.

Definition MakeProxy (cfg : ProxyConfig) : result ReverseProxy :=
  match url_Parse (DestURL cfg) with
  | Err err => Err err
  | Ok u =>
      match MakeRoundTripper cfg with
      | Err err => Err err
      | Ok rt =>
          Ok {| RP_Transport := rt;
                Rewrite := fun r =>
                  let r := SetURL r u in
                  Set_Out_Host r (Req_Host (In r)) |}
      end
  end.

(** The host a server reads in a request sent by a client: the
    request's [Host] when set, the host of its URL otherwise. *)
Definition sent_Host (r : Request) : string :=
  if Req_Host r =? "" then Host (Req_URL r) else Req_Host r.

(** *** Vocabulary of the properties *)

(** The two delays of a request. *)
Inductive Stage : Type := Pre | Post.

Definition stage_rate (cfg : ProxyConfig) (st : Stage) : float64 :=
  match st with Pre => PreDelayRate cfg | Post => PostDelayRate cfg end.

Definition stage_max (cfg : ProxyConfig) (st : Stage) : float64 :=
  match st with Pre => PreDelayMax cfg | Post => PostDelayMax cfg end.

(** The delay closure of a stage, with the generator that
    [MakeRoundTripper] builds for it. *)
Definition stage_delay (cfg : ProxyConfig) (st : Stage) : M Z :=
  match st with
  | Pre => preDelay cfg {| Rate := PreDelayRate cfg |}
  | Post => postDelay cfg {| Rate := PostDelayRate cfg |}
  end.

(** The value the next call of [Rand] returns at a given rate, and the
    world after that one draw. *)
Definition next_draw (rate : float64) (w : World) : float64 :=
  f64_div (fst (rand_ExpFloat64 (rand_src w))) rate.

Definition consume_draw (w : World) : World :=
  {| rand_src := snd (rand_ExpFloat64 (rand_src w)); net := net w; trace := trace w |}.

(** The logger and the transport a configuration stands for. *)
Definition logger_of (cfg : ProxyConfig) : log_Logger :=
  match Logger cfg with Some l => l | None => log_Default end.

Definition transport_of (cfg : ProxyConfig) : RoundTripper :=
  match Transport cfg with Some t => t | None => http_DefaultTransport end.

(** The sleeps of a trace, the requests handed to the outside transport,
    and the trace without its log lines. *)
Definition sleeps (tr : list Event) : list Z :=
  flat_map (fun e => match e with EvSleep d => [d] | _ => [] end) tr.

Definition forwarded (tr : list Event) : list Request :=
  flat_map (fun e => match e with EvRoundTrip r => [r] | _ => [] end) tr.

Definition effects (tr : list Event) : list Event :=
  filter (fun e => match e with EvLog _ _ _ _ => false | _ => true end) tr.

(** The events of one round trip, given its two delays. *)
Definition round_trip_events (cfg : ProxyConfig) (r : Request) (dpre dpost : Z)
  : list Event :=
  [ EvLog (logger_of cfg) InfoLevel "Incoming request" [];
    EvLog (logger_of cfg) DebugLevel "Sleeping for %s before request." [ArgDuration dpre];
    EvSleep dpre;
    EvLog (logger_of cfg) DebugLevel "Sending request to %q" [ArgString (DestURL cfg)];
    EvRoundTrip r;
    EvLog (logger_of cfg) DebugLevel "Sleeping for %s after response returned."
      [ArgDuration dpost];
    EvSleep dpost;
    EvLog (logger_of cfg) DebugLevel "Returning response to client." [] ].

Definition set_Logger (cfg : ProxyConfig) (lg : option log_Logger) : ProxyConfig :=
  {| DestURL := DestURL cfg; ProbDrop := ProbDrop cfg;
     PreDelayRate := PreDelayRate cfg; PreDelayMax := PreDelayMax cfg;
     PostDelayRate := PostDelayRate cfg; PostDelayMax := PostDelayMax cfg;
     Seed := Seed cfg; Transport := Transport cfg; Logger := lg |}.

Definition set_Seed (cfg : ProxyConfig) (seed : Z) : ProxyConfig :=
  {| DestURL := DestURL cfg; ProbDrop := ProbDrop cfg;
     PreDelayRate := PreDelayRate cfg; PreDelayMax := PreDelayMax cfg;
     PostDelayRate := PostDelayRate cfg; PostDelayMax := PostDelayMax cfg;
     Seed := seed; Transport := Transport cfg; Logger := Logger cfg |}.

Definition set_ProbDrop (cfg : ProxyConfig) (p : float64) : ProxyConfig :=
  {| DestURL := DestURL cfg; ProbDrop := p;
     PreDelayRate := PreDelayRate cfg; PreDelayMax := PreDelayMax cfg;
     PostDelayRate := PostDelayRate cfg; PostDelayMax := PostDelayMax cfg;
     Seed := Seed cfg; Transport := Transport cfg; Logger := Logger cfg |}.

(** A destination string parses as an absolute URL. *)
Definition parses_as_absolute (dest : string) : Prop :=
  exists u, url_Parse dest = Ok u /\ IsAbs u = true.

End Package.

(** A maximum, in milliseconds, that a [time.Duration] can hold: its
    integer part times a million fits int64. *)
Definition fits_Duration_ms (max : float64) : bool :=
  match f64_trunc max with
  | Some k => (k * time_Millisecond <=? int64_max)%Z
  | None => false
  end.

(** An outbound request that names where to send it: a scheme and a
    host in its URL, without which [http.Transport] refuses it. *)
Definition routable (r : Request) : bool :=
  negb (Scheme (Req_URL r) =? "") && negb (Host (Req_URL r) =? "").

(** ** Further vocabulary: draws, sequences of requests, sane settings *)

(** A finite float64 that is not negative: what [rand.ExpFloat64]
    returns. *)
Definition f64_finite_nonneg (x : float64) : bool :=
  match x with
  | S754_zero _ => true
  | S754_finite false _ _ => true
  | _ => false
  end.

(** A float64 that is not negative, as an integer: its value in units
    of 2^-1074, with infinity above every finite value. *)
Definition f64_rank (x : float64) : Z :=
  match x with
  | S754_zero _ => 0
  | S754_finite false m e => Zpos m * 2 ^ (e + 1074)
  | S754_infinity false => 2 ^ 2100
  | _ => -1
  end.

Section Sequences.
Context `{E : Env}.

(** The source after [n] draws. *)
Fixpoint advance (n : nat) (s : Source) : Source :=
  match n with
  | O => s
  | S n' => advance n' (snd (rand_ExpFloat64 s))
  end.

(** The draws a stage makes per request: none when its rate is [<= 0],
    one otherwise. *)
Definition draws_used (cfg : ProxyConfig) (st : Stage) : nat :=
  if f64_le (stage_rate cfg st) f64_zero then 0%nat else 1%nat.

(** The loggers written to, line by line. *)
Definition loggers (tr : list Event) : list log_Logger :=
  flat_map (fun e => match e with EvLog lg _ _ _ => [lg] | _ => [] end) tr.

(** Requests handled one after the other by one round tripper. *)
Fixpoint RoundTrips (rt : roundTripperFunc) (rs : list Request)
  : M (list RoundTripResult) :=
  match rs with
  | [] => ret []
  | r :: rs' =>
      bind (RoundTrip rt r) (fun res =>
      bind (RoundTrips rt rs') (fun rest =>
      ret (res :: rest)))
  end.

(** The same requests given to a transport directly. *)
Fixpoint transport_run (t : RoundTripper) (rs : list Request) (n : Net)
  : list RoundTripResult * Net :=
  match rs with
  | [] => ([], n)
  | r :: rs' =>
      let (res, n') := t r n in
      let (rest, n'') := transport_run t rs' n' in
      (res :: rest, n'')
  end.

(** Settings of a stage under which its delay is what the field
    comments describe: a rate that is a number, and a maximum that is a
    non-negative float64 a duration can hold in milliseconds. *)
Definition sane_stage (cfg : ProxyConfig) (st : Stage) : bool :=
  (f64_le (stage_rate cfg st) f64_zero || f64_lt f64_zero (stage_rate cfg st))
  && f64_le f64_zero (stage_max cfg st)
  && valid_float64 (stage_max cfg st)
  && fits_Duration_ms (stage_max cfg st).

End Sequences.

(** ** A concrete environment, for closed examples

    A backend that answers every request with 200 and counts them, a
    random source that replays a list of draws (and then yields 1), the
    amd64 result of an unrepresentable conversion, and URL decoders for
    text without percent-escapes or user information. *)

Definition demo_response (r : Request) : Response :=
  {| StatusCode := 200; Resp_Header := []; Resp_Body := Body r |}.

Definition f64_one : float64 := f64_of_Z 1.

#[local] Instance demo_Env : Env := {|
  Net := nat;
  http_DefaultTransport := fun r n => ((Some (demo_response r), None), S n);
  Source := list float64;
  rand_ExpFloat64 := fun s => match s with [] => (f64_one, []) | x :: s' => (x, s') end;
  log_Logger := string;
  log_Default := "default";
  int64_of_unrepresentable := fun _ => int64_min;
  url_parseAuthority := fun a => Ok (None, a);
  url_setPath := fun p => Ok (p, "");
  url_setFragment := fun f => Ok (f, "");
  joinURLPath := fun a b => (Path a ++ Path b, "")
|}.

(** A transport that always fails. *)
Definition refusing_transport : @RoundTripper demo_Env :=
  fun _ n => ((None, Some (errors_New "connection refused")), n).

Definition demo_request : Request :=
  {| Method := "GET";
     Req_URL := {| Scheme := ""; Opaque := ""; User := None; Host := "";
                   Path := "/dir"; RawPath := ""; OmitHost := false;
                   ForceQuery := false; RawQuery := ""; Fragment := "";
                   RawFragment := "" |};
     Req_Host := "client.example"; Header := []; Body := "ping" |}.

Definition demo_world (draws : list float64) : @World demo_Env :=
  {| rand_src := draws; net := 0%nat; trace := [] |}.

(** A configuration of the demo environment with the given delay
    parameters, drop probability and seed. *)
Definition demo_config (dest : string) (drop preRate preMax postRate postMax : float64)
    (seed : Z) (t : option (@RoundTripper demo_Env)) : @ProxyConfig demo_Env :=
  {| DestURL := dest; ProbDrop := drop;
     PreDelayRate := preRate; PreDelayMax := preMax;
     PostDelayRate := postRate; PostDelayMax := postMax;
     Seed := seed; Transport := t; Logger := None |}.

(** Delays at rate 2 up to 250 ms before the request and at rate 1 up
    to 4 ms after it, seed 42. *)
Definition delayed_config : @ProxyConfig demo_Env :=
  demo_config "http://backend.example:8080/base" f64_zero
    (f64_of_Z 2) (f64_of_Z 250) (f64_of_Z 1) (f64_of_Z 4) 42 None.

(** No pre-delay (rate 0) and no post-delay (rate -1). *)
Definition undelayed_config : @ProxyConfig demo_Env :=
  demo_config "http://backend.example:8080/base" f64_zero
    f64_zero (f64_of_Z 250) (f64_of_Z (-1)) (f64_of_Z 4) 0 None.

(** A pre-delay at rate 2^-44 with a maximum of 2^44 ms, some 557 years. *)
Definition huge_max_config : @ProxyConfig demo_Env :=
  demo_config "http://backend.example:8080/base" f64_zero
    (f64_ldexp 1 (-44)) (f64_ldexp 1 44) f64_zero f64_zero 0 None.

(** The delays of [delayed_config] in front of a transport that fails. *)
Definition refused_config : @ProxyConfig demo_Env :=
  demo_config "http://backend.example:8080/base" f64_zero
    (f64_of_Z 2) (f64_of_Z 250) (f64_of_Z 1) (f64_of_Z 4) 0 (Some refusing_transport).

(** No delays, and the given destination. *)
Definition destination_config (dest : string) : @ProxyConfig demo_Env :=
  demo_config dest f64_zero f64_zero f64_zero f64_zero f64_zero 0 None.

Definition idle_proxy : @ReverseProxy demo_Env :=
  {| RP_Transport := fun _ => ret (None, None); Rewrite := fun r => r |}.

Definition demo_proxy : @ReverseProxy demo_Env :=
  match MakeProxy delayed_config with Ok p => p | Err _ => idle_proxy end.

Definition demo_URL : URL :=
  {| Scheme := "http"; Opaque := ""; User := None; Host := "backend.example:8080";
     Path := "/base"; RawPath := ""; OmitHost := false; ForceQuery := false;
     RawQuery := ""; Fragment := ""; RawFragment := "" |}.

(** 7.5 and 600, as draws of the source. *)
Definition draw_7_5 : float64 := f64_ldexp 15 (-1).
Definition draw_600 : float64 := f64_of_Z 600.

(** A pre-delay at rate 1 with a maximum of -5 ms. *)
Definition negative_max_config : @ProxyConfig demo_Env :=
  demo_config "http://backend.example:8080/base" f64_zero
    (f64_of_Z 1) (f64_of_Z (-5)) f64_zero f64_zero 0 None.

(** A destination read with its line end. *)
Definition newline_destination : string :=
  "http://backend.example:8080" ++ String (ascii_of_nat 10) "".

(** * Properties *)

Local Open Scope Z_scope.
Local Open Scope list_scope.

(** ** float64: order and integer part *)

Lemma SFcompare_swap (x y : spec_float) :
  SFcompare y x = option_map CompOpp (SFcompare x y).
Proof.
  destruct x as [sx|sx| |sx mx ex], y as [sy|sy| |sy my ey]; simpl;
    try reflexivity;
    try (destruct sx; reflexivity); try (destruct sy; reflexivity);
    try (destruct sx, sy; reflexivity).
  destruct sx, sy; simpl; try reflexivity;
    rewrite (Z.compare_antisym ex ey);
    destruct (ex ?= ey); simpl; try reflexivity;
    rewrite (Pos.compare_cont_antisym mx my Eq); simpl;
    destruct (Pos.compare_cont Eq mx my); reflexivity.
Qed.

Lemma digits2_pos_bounds (m : positive) :
  2 ^ (Zpos (digits2_pos m) - 1) <= Zpos m < 2 ^ Zpos (digits2_pos m).
Proof.
  induction m as [p IH|p IH|]; simpl digits2_pos.
  - rewrite Pos2Z.inj_succ.
    replace (Z.succ (Zpos (digits2_pos p)) - 1) with (Z.succ (Zpos (digits2_pos p) - 1)) by lia.
    rewrite !Z.pow_succ_r by lia. lia.
  - rewrite Pos2Z.inj_succ.
    replace (Z.succ (Zpos (digits2_pos p)) - 1) with (Z.succ (Zpos (digits2_pos p) - 1)) by lia.
    rewrite !Z.pow_succ_r by lia. lia.
  - simpl. lia.
Qed.

(** What validity says of a finite float64: its exponent is at least
    -1074, its mantissa has at most 53 bits, and exactly 53 above the
    least exponent. *)
Lemma valid_finite_inv (s : bool) (m : positive) (e : Z) :
  valid_float64 (S754_finite s m e) = true ->
  -1074 <= e <= 971 /\ Zpos m < 2 ^ 53 /\ (-1074 < e -> 2 ^ 52 <= Zpos m).
Proof.
  unfold valid_float64, valid_binary, bounded, canonical_mantissa, fexp, emin,
    f64_prec, f64_emax.
  intros H. apply andb_true_iff in H. destruct H as [Hc Hb].
  apply Z.eqb_eq in Hc. apply Z.leb_le in Hb.
  pose proof (digits2_pos_bounds m) as [Hlo Hhi].
  set (d := Zpos (digits2_pos m)) in *.
  clearbody d.
  assert (Hd : d <= 53) by lia.
  split; [lia|]. split.
  - eapply Z.lt_le_trans; [exact Hhi|]. apply Z.pow_le_mono_r; lia.
  - intros He. assert (d = 53) by lia.
    replace 52 with (d - 1) by lia. exact Hlo.
Qed.

Lemma shiftl_scaled (a e K : Z) :
  0 <= K -> 0 <= e + K -> Z.shiftl a e = (a * 2 ^ (e + K)) / 2 ^ K.
Proof.
  intros HK He.
  assert (0 < 2 ^ (e + K)) by (apply Z.pow_pos_nonneg; lia).
  assert (0 < 2 ^ K) by (apply Z.pow_pos_nonneg; lia).
  destruct (Z.le_gt_cases 0 e) as [Hs|Hs].
  - rewrite Z.shiftl_mul_pow2 by lia.
    rewrite Z.pow_add_r by lia. rewrite Z.mul_assoc.
    rewrite Z.div_mul; [reflexivity|lia].
  - rewrite Z.shiftl_div_pow2 by lia.
    replace (2 ^ K) with (2 ^ (- e) * 2 ^ (e + K)).
    + rewrite Z.div_mul_cancel_r; [reflexivity| |lia].
      assert (0 < 2 ^ (- e)) by (apply Z.pow_pos_nonneg; lia). lia.
    + rewrite <- Z.pow_add_r by lia. f_equal. lia.
Qed.

(** On valid non-negative finite values, the order of float64 is the
    order of the numbers they denote, here scaled by 2^K. *)
Lemma compare_scaled (m1 m2 : positive) (e1 e2 K : Z) :
  valid_float64 (S754_finite false m1 e1) = true ->
  valid_float64 (S754_finite false m2 e2) = true ->
  f64_le (S754_finite false m1 e1) (S754_finite false m2 e2) = true ->
  1074 <= K ->
  Zpos m1 * 2 ^ (e1 + K) <= Zpos m2 * 2 ^ (e2 + K).
Proof.
  intros V1 V2 Hle HK.
  apply valid_finite_inv in V1. apply valid_finite_inv in V2.
  destruct V1 as (He1 & Hm1 & Hn1), V2 as (He2 & Hm2 & Hn2).
  unfold f64_le, SFleb in Hle. simpl in Hle.
  destruct (Z.compare_spec e1 e2) as [Heq|Hlt|Hgt].
  - subst e2. apply Z.mul_le_mono_nonneg_r.
    + apply Z.pow_nonneg; lia.
    + change (Pos.compare_cont Eq m1 m2) with (Pos.compare m1 m2) in Hle.
      destruct (Pos.compare_spec m1 m2) as [Hm|Hm|Hm]; try discriminate; lia.
  - clear Hle. specialize (Hn2 ltac:(lia)).
    assert (H2 : 2 ^ (e1 + K + 1) <= 2 ^ (e2 + K)) by (apply Z.pow_le_mono_r; lia).
    rewrite Z.pow_add_r in H2 by lia.
    assert (0 < 2 ^ (e1 + K)) by (apply Z.pow_pos_nonneg; lia).
    change (2 ^ 53) with (2 * 2 ^ 52) in Hm1.
    set (p52 := 2 ^ 52) in *. assert (0 < p52) by (subst p52; lia).
    clearbody p52. nia.
  - discriminate.
Qed.

(** The integer part is monotone on valid non-negative finite values. *)
Lemma shiftl_le (m1 m2 : positive) (e1 e2 : Z) :
  valid_float64 (S754_finite false m1 e1) = true ->
  valid_float64 (S754_finite false m2 e2) = true ->
  f64_le (S754_finite false m1 e1) (S754_finite false m2 e2) = true ->
  Z.shiftl (Zpos m1) e1 <= Z.shiftl (Zpos m2) e2.
Proof.
  intros V1 V2 Hle.
  pose proof (compare_scaled m1 m2 e1 e2 1074 V1 V2 Hle ltac:(lia)) as Hs.
  apply valid_finite_inv in V1. apply valid_finite_inv in V2.
  rewrite (shiftl_scaled (Zpos m1) e1 1074) by lia.
  rewrite (shiftl_scaled (Zpos m2) e2 1074) by lia.
  apply Z.div_le_mono; [|exact Hs].
  apply Z.pow_pos_nonneg; lia.
Qed.

(** What [0 <= x] leaves of a float64. *)
Lemma f64_nonneg_inv (x : float64) :
  f64_le f64_zero x = true ->
  (exists s, x = S754_zero s) \/ (exists m e, x = S754_finite false m e)
  \/ x = S754_infinity false.
Proof.
  destruct x as [s|s| |s m e]; simpl; intros H.
  - left. eauto.
  - destruct s; [discriminate|]. right; right; reflexivity.
  - discriminate.
  - destruct s; [discriminate|]. right; left; eauto.
Qed.

Lemma f64_le_refl (x : float64) : f64_le f64_zero x = true -> f64_le x x = true.
Proof.
  intros H. destruct (f64_nonneg_inv x H) as [[s ->]|[(m & e & ->)| ->]];
    try reflexivity.
  unfold f64_le, SFleb. simpl. rewrite Z.compare_refl.
  change (Pos.compare_cont Eq m m) with (Pos.compare m m).
  rewrite Pos.compare_refl. reflexivity.
Qed.

(** [not (s > max)] is [s <= max] when neither is NaN. *)
Lemma f64_not_gt_le (s max : float64) :
  f64_le f64_zero s = true -> f64_le f64_zero max = true ->
  f64_gt s max = false -> f64_le s max = true.
Proof.
  intros Hs Hm. unfold f64_gt, f64_le, SFltb, SFleb.
  rewrite (SFcompare_swap max s).
  destruct (SFcompare max s) as [[]|] eqn:Hc; simpl; try reflexivity; try discriminate.
  intros _. exfalso.
  destruct (f64_nonneg_inv s Hs) as [[a ->]|[(m & e & ->)| ->]];
    destruct (f64_nonneg_inv max Hm) as [[b ->]|[(m' & e' & ->)| ->]];
    simpl in Hc; discriminate.
Qed.

Lemma f64_gt_zero_not_le (rate : float64) :
  f64_lt f64_zero rate = true -> f64_le rate f64_zero = false.
Proof.
  unfold f64_lt, f64_le, SFltb, SFleb. rewrite (SFcompare_swap f64_zero rate).
  destruct (SFcompare f64_zero rate) as [[]|]; simpl; congruence.
Qed.

(** The integer part of a value between 0 and [max], both valid, lies
    between 0 and the integer part of [max]. *)
Lemma f64_trunc_le (x max : float64) (kmax : Z) :
  valid_float64 x = true -> valid_float64 max = true ->
  f64_le f64_zero x = true -> f64_le x max = true ->
  f64_trunc max = Some kmax ->
  exists k, f64_trunc x = Some k /\ 0 <= k <= kmax.
Proof.
  intros Vx Vm H0 Hle Hk.
  destruct (f64_nonneg_inv x H0) as [[a ->]|[(m & e & ->)| ->]].
  - exists 0. split; [reflexivity|].
    destruct max as [b|b| |b m' e']; simpl in Hk; inversion Hk; subst; try lia.
    destruct b; simpl in Hle; [discriminate|]. simpl.
    split; [lia|]. apply Z.shiftl_nonneg. lia.
  - destruct max as [b|b| |b m' e']; simpl in Hk; inversion Hk; subst; clear Hk.
    + simpl in Hle. discriminate.
    + destruct b; [simpl in Hle; discriminate|].
      exists (Z.shiftl (Zpos m) e). simpl. split; [reflexivity|]. split.
      * apply Z.shiftl_nonneg. lia.
      * apply shiftl_le; assumption.
  - destruct max as [b|b| |b m' e']; simpl in Hk; inversion Hk; subst; clear Hk;
      simpl in Hle; discriminate.
Qed.

(** Rounding toward zero: the integer part of a non-negative value is
    the largest integer not above it. *)
Lemma f64_trunc_value (x : float64) (k : Z) :
  f64_le f64_zero x = true -> f64_trunc x = Some k ->
  (inject_Z k <= f64_value x)%Q /\ (f64_value x < inject_Z (k + 1))%Q.
Proof.
  intros H0 Hk.
  destruct (f64_nonneg_inv x H0) as [[a ->]|[(m & e & ->)| ->]];
    simpl in Hk; inversion Hk; subst; clear Hk.
  - split; [apply Qle_refl|]. reflexivity.
  - destruct e as [|p|p]; cbn [f64_value cond_Zopp].
    + rewrite Z.shiftl_mul_pow2 by lia. rewrite <- Zlt_Qlt. split; [apply Qle_refl|lia].
    + rewrite Z.shiftl_mul_pow2 by lia. rewrite <- Zlt_Qlt. split; [apply Qle_refl|lia].
    + rewrite Z.shiftl_div_pow2 by lia.
      change (- Zneg p) with (Zpos p).
      assert (Hp : 0 < 2 ^ Zpos p) by (apply Z.pow_pos_nonneg; lia).
      unfold Qle, Qlt. cbn [Qnum Qden inject_Z].
      rewrite Pos2Z.inj_pow. rewrite !Z.mul_1_r.
      split.
      * rewrite Z.mul_comm. apply Z.mul_div_le. exact Hp.
      * rewrite Z.mul_comm. rewrite Z.add_1_r. apply Z.mul_succ_div_gt. exact Hp.
Qed.

(** *** Division

    [SFdiv] shifts the dividend, divides the mantissas and rounds the
    quotient; what follows shows that the result is again a float64,
    of the sign of the operands. *)

Lemma Zdigits2_nonneg (m : Z) : 0 <= Zdigits2 m.
Proof. destruct m; simpl; lia. Qed.

Lemma Zdigits2_bounds (m : Z) :
  0 < m -> 2 ^ (Zdigits2 m - 1) <= m < 2 ^ Zdigits2 m.
Proof.
  destruct m as [|p|p]; try lia. intros _. exact (digits2_pos_bounds p).
Qed.

Lemma Zdigits2_unique (m d : Z) :
  0 < m -> 2 ^ (d - 1) <= m < 2 ^ d -> Zdigits2 m = d.
Proof.
  intros Hm [Hlo Hhi].
  pose proof (Zdigits2_bounds m Hm) as [Hlo' Hhi'].
  pose proof (Zdigits2_nonneg m) as Hd.
  assert (0 < d).
  { destruct (Z.lt_trichotomy d 0) as [Hneg|[->|Hpos]]; [|simpl in Hhi; lia|exact Hpos].
    rewrite Z.pow_neg_r in Hhi by lia. lia. }
  destruct (Z.lt_trichotomy (Zdigits2 m) d) as [Hlt|[Heq|Hgt]]; [|exact Heq|].
  - assert (2 ^ Zdigits2 m <= 2 ^ (d - 1)) by (apply Z.pow_le_mono_r; lia). lia.
  - assert (2 ^ d <= 2 ^ (Zdigits2 m - 1)) by (apply Z.pow_le_mono_r; lia). lia.
Qed.

Lemma Zdigits2_mono (a b : Z) : 0 <= a <= b -> Zdigits2 a <= Zdigits2 b.
Proof.
  intros [Ha Hab].
  destruct (Z.eq_dec a 0) as [->|Hnz]; [apply Zdigits2_nonneg|].
  pose proof (Zdigits2_bounds a ltac:(lia)) as [Hlo _].
  pose proof (Zdigits2_bounds b ltac:(lia)) as [_ Hhi].
  destruct (Z.le_gt_cases (Zdigits2 a) (Zdigits2 b)) as [H|H]; [exact H|].
  assert (2 ^ Zdigits2 b <= 2 ^ (Zdigits2 a - 1)).
  { apply Z.pow_le_mono_r; [lia|lia]. }
  lia.
Qed.

Lemma Zdigits2_div_pow2 (m n : Z) :
  0 < m -> 0 <= n -> 0 < m / 2 ^ n -> Zdigits2 (m / 2 ^ n) = Zdigits2 m - n.
Proof.
  intros Hm Hn Hq.
  pose proof (Zdigits2_bounds m Hm) as [Hlo Hhi].
  assert (Hp : 0 < 2 ^ n) by (apply Z.pow_pos_nonneg; lia).
  assert (Hge : 2 ^ n <= m).
  { destruct (Z.le_gt_cases (2 ^ n) m) as [H|H]; [exact H|].
    rewrite Z.div_small in Hq by lia. lia. }
  assert (Hd : n < Zdigits2 m).
  { destruct (Z.lt_ge_cases n (Zdigits2 m)) as [H|H]; [exact H|].
    assert (2 ^ Zdigits2 m <= 2 ^ n) by (apply Z.pow_le_mono_r; lia). lia. }
  apply Zdigits2_unique; [exact Hq|]. split.
  - apply Z.div_le_lower_bound; [exact Hp|].
    rewrite <- Z.pow_add_r by lia.
    replace (n + (Zdigits2 m - n - 1)) with (Zdigits2 m - 1) by lia. exact Hlo.
  - apply Z.div_lt_upper_bound; [exact Hp|].
    rewrite <- Z.pow_add_r by lia.
    replace (n + (Zdigits2 m - n)) with (Zdigits2 m) by lia. exact Hhi.
Qed.

(** Shifting a record right halves its mantissa. *)
Lemma shr_1_m (mrs : shr_record) : 0 <= shr_m mrs -> shr_m (shr_1 mrs) = shr_m mrs / 2.
Proof.
  destruct mrs as [m r s]. simpl. intros Hm.
  destruct m as [|[p|p|]|p]; simpl; try reflexivity; try lia.
  - rewrite Pos2Z.inj_xI. apply Z.div_unique with (r := 1); lia.
  - rewrite Pos2Z.inj_xO. apply Z.div_unique with (r := 0); lia.
Qed.

Lemma iter_shr_1_m (p : positive) :
  forall mrs, 0 <= shr_m mrs ->
    shr_m (iter_pos shr_1 p mrs) = shr_m mrs / 2 ^ Zpos p.
Proof.
  induction p as [p IH|p IH|]; intros mrs Hm; simpl iter_pos.
  - assert (H1 : 0 <= shr_m (shr_1 mrs)).
    { rewrite shr_1_m by exact Hm. apply Z.div_pos; lia. }
    assert (Hp : 0 < 2 ^ Zpos p) by (apply Z.pow_pos_nonneg; lia).
    assert (H2 : 0 <= shr_m (iter_pos shr_1 p (shr_1 mrs))).
    { rewrite IH by exact H1. apply Z.div_pos; lia. }
    rewrite IH by exact H2. rewrite IH by exact H1. rewrite shr_1_m by exact Hm.
    rewrite !Z.div_div by lia. f_equal.
    replace (Z.pos p~1) with (1 + (Z.pos p + Z.pos p)) by lia.
    rewrite !Z.pow_add_r by lia. lia.
  - assert (Hp : 0 < 2 ^ Zpos p) by (apply Z.pow_pos_nonneg; lia).
    assert (H2 : 0 <= shr_m (iter_pos shr_1 p mrs)).
    { rewrite IH by exact Hm. apply Z.div_pos; lia. }
    rewrite IH by exact H2. rewrite IH by exact Hm.
    rewrite !Z.div_div by lia. f_equal.
    replace (Z.pos p~0) with (Z.pos p + Z.pos p) by lia.
    rewrite !Z.pow_add_r by lia. lia.
  - rewrite shr_1_m by exact Hm. reflexivity.
Qed.

Lemma shr_record_of_loc_m (m : Z) (l : location) : shr_m (shr_record_of_loc m l) = m.
Proof. destruct l as [|[]]; reflexivity. Qed.

(** [shr_fexp] on a non-negative mantissa: a division by a power of two
    that brings the exponent up to [fexp]. *)
Lemma shr_fexp_spec (m e : Z) (l : location) :
  0 <= m ->
  let n := fexp f64_prec f64_emax (Zdigits2 m + e) - e in
  let res := shr_fexp f64_prec f64_emax m e l in
  (0 < n -> shr_m (fst res) = m / 2 ^ n /\ snd res = e + n)
  /\ (n <= 0 -> shr_m (fst res) = m /\ snd res = e).
Proof.
  intros Hm n res. subst res n. unfold shr_fexp.
  generalize (fexp f64_prec f64_emax (Zdigits2 m + e) - e). intros n.
  destruct n as [|p|p]; unfold shr; cbn [fst snd].
  - split; [lia|]. intros _. rewrite shr_record_of_loc_m. split; reflexivity.
  - split; [|lia]. intros _.
    rewrite iter_shr_1_m by (rewrite shr_record_of_loc_m; exact Hm).
    rewrite shr_record_of_loc_m. split; reflexivity.
  - split; [lia|]. intros _. rewrite shr_record_of_loc_m. split; reflexivity.
Qed.

Lemma round_nearest_even_bounds (m : Z) (l : location) :
  m <= round_nearest_even m l <= m + 1.
Proof.
  destruct l as [|[]]; simpl; try lia. destruct (Z.even m); lia.
Qed.

Lemma fexp_mono (a b : Z) :
  a <= b -> fexp f64_prec f64_emax a <= fexp f64_prec f64_emax b.
Proof. unfold fexp, emin, f64_prec, f64_emax. lia. Qed.

(** After [shr_fexp], the exponent is at most [fexp] of the new
    magnitude, provided it was so before. *)
Lemma shr_fexp_exponent (m e : Z) (l : location) :
  0 <= m ->
  e <= fexp f64_prec f64_emax (Zdigits2 m + e) ->
  let res := shr_fexp f64_prec f64_emax m e l in
  0 <= shr_m (fst res)
  /\ snd res <= fexp f64_prec f64_emax (Zdigits2 (shr_m (fst res)) + snd res)
  /\ (0 < shr_m (fst res) ->
      snd res = fexp f64_prec f64_emax (Zdigits2 (shr_m (fst res)) + snd res)).
Proof.
  intros Hm He res.
  destruct (shr_fexp_spec m e l Hm) as [Hpos Hneg]. cbv zeta in Hpos, Hneg. fold res in Hpos, Hneg.
  set (n := fexp f64_prec f64_emax (Zdigits2 m + e) - e) in *.
  destruct (Z.lt_ge_cases 0 n) as [Hn|Hn].
  - destruct (Hpos Hn) as [Hm' He']. rewrite Hm', He'.
    assert (Hp : 0 < 2 ^ n) by (apply Z.pow_pos_nonneg; lia).
    assert (Hq : 0 <= m / 2 ^ n) by (apply Z.div_pos; lia).
    split; [exact Hq|].
    destruct (Z.eq_dec (m / 2 ^ n) 0) as [Hz|Hnz].
    + rewrite Hz. simpl Zdigits2. split; [|lia].
      assert (Hd : Zdigits2 m <= n).
      { destruct (Z.eq_dec m 0) as [->|Hm0]; [simpl; lia|].
        pose proof (Zdigits2_bounds m ltac:(lia)) as [Hlo _].
        destruct (Z.le_gt_cases (Zdigits2 m) n) as [H|H]; [exact H|].
        assert (2 ^ n <= 2 ^ (Zdigits2 m - 1)) by (apply Z.pow_le_mono_r; lia).
        assert (1 <= m / 2 ^ n).
        { apply Z.div_le_lower_bound; lia. }
        lia. }
      replace (e + n) with (fexp f64_prec f64_emax (Zdigits2 m + e)) by (subst n; lia).
      apply fexp_mono. subst n. lia.
    + assert (Hm0 : 0 < m).
      { destruct (Z.eq_dec m 0) as [->|]; [rewrite Z.div_0_l in Hnz by lia; lia|lia]. }
      rewrite Zdigits2_div_pow2 by lia.
      replace (Zdigits2 m - n + (e + n)) with (Zdigits2 m + e) by lia.
      subst n. split; [lia|]. intros _. lia.
  - destruct (Hneg Hn) as [Hm' He']. rewrite Hm', He'.
    split; [exact Hm|]. subst n. split; [lia|]. intros _. lia.
Qed.

(** Rounding a non-negative mantissa whose exponent is not above
    [fexp] of its magnitude gives a valid float64 of the given sign,
    not NaN. *)
Lemma binary_round_aux_valid (sx : bool) (mx ex : Z) (lx : location) :
  0 <= mx ->
  ex <= fexp f64_prec f64_emax (Zdigits2 mx + ex) ->
  valid_float64 (binary_round_aux f64_prec f64_emax sx mx ex lx) = true
  /\ (binary_round_aux f64_prec f64_emax sx mx ex lx = S754_zero sx
      \/ binary_round_aux f64_prec f64_emax sx mx ex lx = S754_infinity sx
      \/ exists m e, binary_round_aux f64_prec f64_emax sx mx ex lx = S754_finite sx m e).
Proof.
  intros Hm He. unfold binary_round_aux.
  destruct (shr_fexp_exponent mx ex lx Hm He) as (H1m & H1e & _).
  destruct (shr_fexp f64_prec f64_emax mx ex lx) as [mrs' e'].
  cbn [fst snd] in H1m, H1e.
  set (m1 := round_nearest_even (shr_m mrs') (loc_of_shr_record mrs')).
  pose proof (round_nearest_even_bounds (shr_m mrs') (loc_of_shr_record mrs')) as Hr.
  fold m1 in Hr.
  assert (Hm1 : 0 <= m1) by lia.
  assert (He1 : e' <= fexp f64_prec f64_emax (Zdigits2 m1 + e')).
  { eapply Z.le_trans; [exact H1e|]. apply fexp_mono.
    pose proof (Zdigits2_mono (shr_m mrs') m1 ltac:(lia)). lia. }
  destruct (shr_fexp_exponent m1 e' loc_Exact Hm1 He1) as (H2m & _ & H2c).
  destruct (shr_fexp f64_prec f64_emax m1 e' loc_Exact) as [mrs'' e''].
  cbn [fst snd] in H2m, H2c.
  destruct (shr_m mrs'') as [|m|m] eqn:Hm''.
  - split; [reflexivity|]. left. reflexivity.
  - destruct (e'' <=? f64_emax - f64_prec) eqn:Hb.
    + split; [|right; right; eauto].
      unfold valid_float64, valid_binary, bounded, canonical_mantissa.
      rewrite Hb. rewrite andb_true_r. apply Z.eqb_eq.
      symmetry. apply H2c. lia.
    + split; [reflexivity|]. right; left; reflexivity.
  - lia.
Qed.

(** The quotient that [SFdiv] rounds has enough bits. *)
Lemma SFdiv_core_binary_exponent (m1 m2 : positive) (e1 e2 : Z) :
  let '(q, e', _) := SFdiv_core_binary f64_prec f64_emax (Zpos m1) e1 (Zpos m2) e2 in
  0 <= q /\ e' <= fexp f64_prec f64_emax (Zdigits2 q + e').
Proof.
  unfold SFdiv_core_binary.
  set (d1 := Zdigits2 (Zpos m1)). set (d2 := Zdigits2 (Zpos m2)).
  set (e' := Z.min (fexp f64_prec f64_emax (d1 + e1 - (d2 + e2))) (e1 - e2)).
  remember (e1 - e2 - e') as s eqn:Es.
  assert (Hs : 0 <= s) by (subst s e'; lia).
  remember (match s with Zpos _ => Z.shiftl (Zpos m1) s | Z0 => Zpos m1 | Zneg _ => 0 end)
    as m' eqn:Em'.
  assert (Hm' : m' = Zpos m1 * 2 ^ s).
  { subst m'. clear Es. destruct s as [|p|p]; try lia.
    apply Z.shiftl_mul_pow2. lia. }
  clear Em'.
  pose proof (Z_div_mod m' (Zpos m2) ltac:(lia)) as Hdiv.
  destruct (Z.div_eucl m' (Zpos m2)) as [q r] eqn:Hqr.
  destruct Hdiv as [Hdiv Hr].
  assert (Hp : 0 < 2 ^ s) by (apply Z.pow_pos_nonneg; lia).
  assert (Hq : 0 <= q) by nia.
  split; [exact Hq|].
  eapply Z.le_trans; [apply Z.le_min_l|]. apply fexp_mono.
  (* digits of q are at least d1 + s - d2 *)
  assert (Hd : d1 + s - d2 <= Zdigits2 q).
  { pose proof (Zdigits2_bounds (Zpos m1) ltac:(lia)) as [Hlo1 _].
    pose proof (Zdigits2_bounds (Zpos m2) ltac:(lia)) as [_ Hhi2].
    fold d1 in Hlo1. fold d2 in Hhi2.
    pose proof (Zdigits2_nonneg q) as Hdq.
    destruct (Z.le_gt_cases (d1 + s - d2) 0) as [Hk|Hk]; [lia|].
    (* 2^(d1 - 1 + s - d2) <= q *)
    assert (Hd1 : 1 <= d1) by (subst d1; simpl; lia).
    assert (Hd2 : 1 <= d2) by (subst d2; simpl; lia).
    assert (Hpow : 2 ^ (d1 - 1 + s) = 2 ^ (d1 + s - d2 - 1) * 2 ^ d2).
    { rewrite <- Z.pow_add_r by lia. f_equal. lia. }
    assert (Hnum : 2 ^ (d1 - 1 + s) <= m').
    { rewrite Hm'. rewrite Z.pow_add_r by lia. apply Z.mul_le_mono_nonneg_r; lia. }
    assert (Hk0 : 0 < 2 ^ (d1 + s - d2 - 1)) by (apply Z.pow_pos_nonneg; lia).
    assert (Hqlo : 2 ^ (d1 + s - d2 - 1) <= q).
    { destruct (Z.le_gt_cases (2 ^ (d1 + s - d2 - 1)) q) as [H|H]; [exact H|].
      exfalso.
      assert (q + 1 <= 2 ^ (d1 + s - d2 - 1)) by lia.
      assert (m' < Zpos m2 * (q + 1)) by lia.
      assert (Zpos m2 * (q + 1) <= 2 ^ d2 * 2 ^ (d1 + s - d2 - 1)).
      { apply Z.mul_le_mono_nonneg; lia. }
      lia. }
    assert (Hq0 : 0 < q) by lia.
    pose proof (Zdigits2_bounds q Hq0) as [_ Hqhi].
    destruct (Z.le_gt_cases (d1 + s - d2) (Zdigits2 q)) as [H|H]; [exact H|].
    assert (2 ^ Zdigits2 q <= 2 ^ (d1 + s - d2 - 1)) by (apply Z.pow_le_mono_r; lia).
    lia. }
  lia.
Qed.

(** A quotient of float64 values is a value of float64. *)
Lemma f64_div_valid (x y : float64) : valid_float64 (f64_div x y) = true.
Proof.
  unfold f64_div.
  destruct x as [sx|sx| |sx mx ex], y as [sy|sy| |sy my ey]; try reflexivity.
  unfold SFdiv.
  pose proof (SFdiv_core_binary_exponent mx my ex ey) as H.
  destruct (SFdiv_core_binary f64_prec f64_emax (Zpos mx) ex (Zpos my) ey) as [[q e'] l].
  destruct H as [Hq He]. apply binary_round_aux_valid; assumption.
Qed.

(** A finite non-negative value divided by a positive one is not
    negative, and not NaN. *)
Lemma f64_div_nonneg (x y : float64) :
  f64_le f64_zero x = true -> x <> S754_infinity false ->
  f64_lt f64_zero y = true ->
  f64_le f64_zero (f64_div x y) = true.
Proof.
  intros Hx Hfin Hy.
  assert (Hy' : y = S754_infinity false \/ exists m e, y = S754_finite false m e).
  { destruct y as [sy|sy| |sy my ey]; simpl in Hy; try discriminate;
      destruct sy; try discriminate; eauto. }
  destruct (f64_nonneg_inv x Hx) as [[sx ->]|[(mx & ex & ->)| ->]]; [| |congruence].
  - destruct Hy' as [->|(my & ey & ->)]; reflexivity.
  - destruct Hy' as [->|(my & ey & ->)]; [reflexivity|].
    unfold f64_div, SFdiv.
    pose proof (SFdiv_core_binary_exponent mx my ex ey) as H.
    destruct (SFdiv_core_binary f64_prec f64_emax (Zpos mx) ex (Zpos my) ey) as [[q e'] l].
    destruct H as [Hq He].
    destruct (binary_round_aux_valid (xorb false false) q e' l Hq He) as [_ Hs].
    simpl xorb in *.
    destruct Hs as [->|[->|(m & e & ->)]]; reflexivity.
Qed.

Lemma wrap64_small (z : Z) : in_int64 z = true -> wrap64 z = z.
Proof.
  unfold in_int64, wrap64, int64_min, int64_max. intros H.
  apply andb_true_iff in H. destruct H as [H1 H2].
  apply Z.leb_le in H1. apply Z.leb_le in H2.
  rewrite Z.mod_small by lia. lia.
Qed.

(** ** The delay closures *)

Section Delays.
Context `{E : Env}.

(** The clamped draw, converted: the duration is the integer part of
    the clamped value, in milliseconds, without wrap-around. *)
Lemma clamped_duration (s max : float64) :
  valid_float64 s = true -> valid_float64 max = true ->
  f64_le f64_zero s = true -> f64_le f64_zero max = true ->
  fits_Duration_ms max = true ->
  exists k kmax,
    f64_trunc (if f64_gt s max then max else s) = Some k
    /\ f64_trunc max = Some kmax
    /\ 0 <= k <= kmax
    /\ int64_mul (Duration_of_float64 (if f64_gt s max then max else s)) time_Millisecond
       = k * time_Millisecond.
Proof.
  intros Vs Vm Hs Hm Hfit.
  unfold fits_Duration_ms in Hfit.
  destruct (f64_trunc max) as [kmax|] eqn:Hkmax; [|discriminate].
  apply Z.leb_le in Hfit.
  set (c := if f64_gt s max then max else s).
  assert (Hc : valid_float64 c = true /\ f64_le f64_zero c = true /\ f64_le c max = true).
  { subst c. destruct (f64_gt s max) eqn:Hgt.
    - repeat split; try assumption. apply f64_le_refl. exact Hm.
    - repeat split; try assumption. apply f64_not_gt_le; assumption. }
  destruct Hc as (Vc & Hc0 & Hcm).
  destruct (f64_trunc_le c max kmax Vc Vm Hc0 Hcm Hkmax) as (k & Hk & Hrange).
  exists k, kmax. repeat split; try assumption; try lia.
  unfold Duration_of_float64, int64_mul. rewrite Hk.
  unfold time_Millisecond, int64_max in *.
  assert (Hin : in_int64 k = true).
  { unfold in_int64, int64_min, int64_max.
    apply andb_true_iff. split; apply Z.leb_le; lia. }
  rewrite Hin. apply wrap64_small.
  unfold in_int64, int64_min, int64_max.
  apply andb_true_iff. split; apply Z.leb_le; lia.
Qed.

(** A stage whose rate is at most zero returns the zero duration and
    leaves the world, and so the random source, as it found it. *)
Lemma stage_delay_zero_rate (cfg : ProxyConfig) (st : Stage) (w : World) :
  f64_le (stage_rate cfg st) f64_zero = true ->
  stage_delay cfg st w = (0, w).
Proof.
  intros Hrate. destruct st; simpl in Hrate; simpl.
  - unfold preDelay. rewrite Hrate. reflexivity.
  - unfold postDelay. rewrite Hrate. reflexivity.
Qed.

(** The delay closure of a stage with a positive rate makes exactly one
    draw, clamps it and converts it. *)
Lemma stage_delay_draws (cfg : ProxyConfig) (st : Stage) (w : World) :
  f64_lt f64_zero (stage_rate cfg st) = true ->
  stage_delay cfg st w =
    (let s := next_draw (stage_rate cfg st) w in
     let s := if f64_gt s (stage_max cfg st) then stage_max cfg st else s in
     int64_mul (Duration_of_float64 s) time_Millisecond,
     consume_draw w).
Proof.
  intros Hrate. apply f64_gt_zero_not_le in Hrate.
  unfold next_draw, consume_draw.
  destruct st; simpl in *.
  - unfold preDelay. rewrite Hrate. unfold bind, Exponential_Rand, ret. simpl.
    destruct (rand_ExpFloat64 (rand_src w)) as [rnd s']. reflexivity.
  - unfold postDelay. rewrite Hrate. unfold bind, Exponential_Rand, ret. simpl.
    destruct (rand_ExpFloat64 (rand_src w)) as [rnd s']. reflexivity.
Qed.

(** The value [Rand] returns is a float64; it is not negative when the
    source yields a finite non-negative number and the rate is positive,
    which is what [rand.ExpFloat64] promises. *)
Lemma next_draw_valid (rate : float64) (w : World) :
  valid_float64 (next_draw rate w) = true.
Proof. unfold next_draw. apply f64_div_valid. Qed.

Lemma next_draw_nonneg (rate : float64) (w : World) :
  f64_lt f64_zero rate = true ->
  f64_le f64_zero (fst (rand_ExpFloat64 (rand_src w))) = true ->
  fst (rand_ExpFloat64 (rand_src w)) <> S754_infinity false ->
  f64_le f64_zero (next_draw rate w) = true.
Proof. intros Hr H0 Hfin. unfold next_draw. apply f64_div_nonneg; assumption. Qed.

(** C4 (amended). For a stage with rate > 0 and a maximum [max >= 0]
    that a duration can hold in milliseconds, a draw [s >= 0] is used as
    follows: exactly one draw is consumed; a draw above [max] is
    replaced by [max] itself; the delay is the integer part [k] of the
    clamped value, rounded toward zero, as [k] milliseconds; and it lies
    between 0 and [max]. *)
Theorem delay_clamped_then_truncated (cfg : ProxyConfig) (st : Stage) (w : World) :
  let rate := stage_rate cfg st in
  let max := stage_max cfg st in
  let s := next_draw rate w in
  let clamped := if f64_gt s max then max else s in
  f64_lt f64_zero rate = true ->
  f64_le f64_zero max = true ->
  valid_float64 max = true ->
  fits_Duration_ms max = true ->
  f64_le f64_zero s = true ->
  exists k kmax : Z,
    stage_delay cfg st w = (k * time_Millisecond, consume_draw w)
    /\ f64_le clamped max = true
    /\ f64_trunc clamped = Some k
    /\ (inject_Z k <= f64_value clamped)%Q /\ (f64_value clamped < inject_Z (k + 1))%Q
    /\ f64_trunc max = Some kmax
    /\ 0 <= k <= kmax
    /\ (inject_Z kmax <= f64_value max)%Q.
Proof.
  intros rate max s clamped Hrate Hmax Vmax Hfit Hs.
  pose proof (next_draw_valid rate w) as Vs. fold s in Vs.
  destruct (clamped_duration s max Vs Vmax Hs Hmax Hfit) as (k & kmax & Hk & Hkmax & Hrange & Hd).
  assert (Hc : f64_le f64_zero clamped = true /\ f64_le clamped max = true).
  { subst clamped. destruct (f64_gt s max) eqn:Hgt.
    - split; [assumption|]. apply f64_le_refl. exact Hmax.
    - split; [assumption|]. apply f64_not_gt_le; assumption. }
  destruct Hc as [Hc0 Hcm].
  exists k, kmax.
  split. { rewrite (stage_delay_draws cfg st w Hrate). cbv zeta. fold rate max s.
           f_equal. exact Hd. }
  split; [exact Hcm|].
  split; [exact Hk|].
  destruct (f64_trunc_value clamped k Hc0 Hk) as [Hlo Hhi].
  split; [exact Hlo|]. split; [exact Hhi|].
  split; [exact Hkmax|]. split; [exact Hrange|].
  destruct (f64_trunc_value max kmax Hmax Hkmax) as [Hlo' _]. exact Hlo'.
Qed.

End Delays.

(** ** The round trip *)

Section RoundTrips.
Context `{E : Env}.

Lemma stage_delay_frame (cfg : ProxyConfig) (st : Stage) (w : World) :
  snd (stage_delay cfg st w)
  = {| rand_src := rand_src (snd (stage_delay cfg st w)); net := net w; trace := trace w |}.
Proof.
  destruct w as [s n t].
  destruct st; simpl; [unfold preDelay|unfold postDelay];
    match goal with |- context [f64_le ?a ?b] => destruct (f64_le a b) end;
    unfold bind, ret, Exponential_Rand; simpl; try reflexivity;
    destruct (rand_ExpFloat64 s); reflexivity.
Qed.

Lemma stage_delay_src (cfg : ProxyConfig) (st : Stage) (w w' : World) :
  rand_src w = rand_src w' ->
  fst (stage_delay cfg st w) = fst (stage_delay cfg st w')
  /\ rand_src (snd (stage_delay cfg st w)) = rand_src (snd (stage_delay cfg st w')).
Proof.
  destruct w as [s n t], w' as [s' n' t']. simpl. intros <-.
  destruct st; simpl; [unfold preDelay|unfold postDelay];
    match goal with |- context [f64_le ?a ?b] => destruct (f64_le a b) end;
    unfold bind, ret, Exponential_Rand; simpl; try (split; reflexivity);
    destruct (rand_ExpFloat64 s); split; reflexivity.
Qed.

(** One round trip, in full: the result is the transport's, the network
    is as the transport left it, the source as the two delays left it,
    and the trace has grown by the eight events of the protocol. *)
Lemma RoundTrip_run (cfg : ProxyConfig) (r : Request) (w : World) :
  exists rt,
    MakeRoundTripper cfg = Ok rt
    /\ let p1 := stage_delay cfg Pre w in
       let out := transport_of cfg r (net w) in
       let p2 := stage_delay cfg Post (snd p1) in
       RoundTrip rt r w =
         (fst out,
          {| rand_src := rand_src (snd p2); net := snd out;
             trace := trace w ++ round_trip_events cfg r (fst p1) (fst p2) |}).
Proof.
  eexists. split; [reflexivity|].
  cbv zeta. unfold RoundTrip, bind, log_Info, log_Debug, time_Sleep, emit, call_RoundTrip, ret.
  fold (logger_of cfg). fold (transport_of cfg).
  change (preDelay cfg {| Rate := PreDelayRate cfg |}) with (stage_delay cfg Pre).
  change (postDelay cfg {| Rate := PostDelayRate cfg |}) with (stage_delay cfg Post).
  cbn [rand_src net trace].
  pose proof (stage_delay_frame cfg Pre
    {| rand_src := rand_src w; net := net w;
       trace := trace w ++ [EvLog (logger_of cfg) InfoLevel "Incoming request" []] |}) as F1.
  pose proof (stage_delay_src cfg Pre
    {| rand_src := rand_src w; net := net w;
       trace := trace w ++ [EvLog (logger_of cfg) InfoLevel "Incoming request" []] |} w eq_refl)
    as [V1 S1].
  destruct (stage_delay cfg Pre _) as [d1 w1] eqn:E1 in F1, V1, S1 |- *.
  destruct w1 as [s1 n1 t1]. simpl in F1, V1, S1. injection F1 as -> ->.
  cbn [rand_src net trace].
  destruct (transport_of cfg r (net w)) as [res n'] eqn:Et. cbn [fst snd].
  match goal with |- context [stage_delay cfg Post ?x] =>
    pose proof (stage_delay_frame cfg Post x) as F2;
    pose proof (stage_delay_src cfg Post x (snd (stage_delay cfg Pre w)) S1) as [V2 S2];
    destruct (stage_delay cfg Post x) as [d2 w2] eqn:E2
  end.
  destruct w2 as [s2 n2 t2]. simpl in F2, V2, S2. injection F2 as -> ->.
  cbn [rand_src net trace].
  f_equal. rewrite V1, V2, S2.
  unfold round_trip_events. repeat rewrite <- app_assoc. reflexivity.
Qed.

Lemma forwarded_app (a b : list Event) : forwarded (a ++ b) = forwarded a ++ forwarded b.
Proof. unfold forwarded. apply flat_map_app. Qed.

Lemma effects_app (a b : list Event) : effects (a ++ b) = effects a ++ effects b.
Proof. unfold effects. apply filter_app. Qed.

Lemma sleeps_app (a b : list Event) : sleeps (a ++ b) = sleeps a ++ sleeps b.
Proof. unfold sleeps. apply flat_map_app. Qed.

(** C5. When the rate of a stage is at most zero, its delay closure
    returns the zero duration without touching the random source: no
    draw is made.  So in the handling of every request the sleep of
    that stage is of exactly zero.  This holds for the pre-delay and
    for the post-delay alike. *)
Theorem zero_rate_no_delay_no_draw
    (cfg : ProxyConfig) (st : Stage) (r : Request) (w : World) :
  f64_le (stage_rate cfg st) f64_zero = true ->
  stage_delay cfg st w = (0, w)
  /\ match MakeRoundTripper cfg with
     | Err _ => False
     | Ok rt =>
         exists dpre dpost : Z,
           sleeps (trace (snd (RoundTrip rt r w))) = sleeps (trace w) ++ [dpre; dpost]
           /\ match st with Pre => dpre = 0 | Post => dpost = 0 end
     end.
Proof.
  intros Hrate. split; [apply stage_delay_zero_rate; exact Hrate|].
  destruct (RoundTrip_run cfg r w) as (rt & Hrt & Hrun).
  rewrite Hrt. cbv zeta in Hrun. rewrite Hrun. cbn [snd trace].
  exists (fst (stage_delay cfg Pre w)).
  exists (fst (stage_delay cfg Post (snd (stage_delay cfg Pre w)))).
  split; [rewrite sleeps_app; reflexivity|].
  destruct st; rewrite stage_delay_zero_rate by exact Hrate; reflexivity.
Qed.

(** C6. Handling one request goes through the protocol in order: the
    pre-delay is sampled and slept, then the request goes to the
    underlying transport, then the post-delay is sampled and slept, then
    the transport's result is returned; the log lines sit between them
    as in the source.  The post-delay is there for every transport and
    every result of it, success or failure.  No stage decides a drop, so
    every request takes the forwarding branch. *)
Theorem round_trip_stages_in_order (cfg : ProxyConfig) (r : Request) (w : World) :
  match MakeRoundTripper cfg with
  | Err _ => False
  | Ok rt =>
      let dpre := fst (stage_delay cfg Pre w) in
      let dpost := fst (stage_delay cfg Post (snd (stage_delay cfg Pre w))) in
      trace (snd (RoundTrip rt r w)) =
        trace w ++
        [ EvLog (logger_of cfg) InfoLevel "Incoming request" [];
          EvLog (logger_of cfg) DebugLevel "Sleeping for %s before request."
            [ArgDuration dpre];
          EvSleep dpre;
          EvLog (logger_of cfg) DebugLevel "Sending request to %q"
            [ArgString (DestURL cfg)];
          EvRoundTrip r;
          EvLog (logger_of cfg) DebugLevel "Sleeping for %s after response returned."
            [ArgDuration dpost];
          EvSleep dpost;
          EvLog (logger_of cfg) DebugLevel "Returning response to client." [] ]
      /\ fst (RoundTrip rt r w) = fst (transport_of cfg r (net w))
  end.
Proof.
  destruct (RoundTrip_run cfg r w) as (rt & Hrt & Hrun).
  rewrite Hrt. cbv zeta in *. rewrite Hrun. split; reflexivity.
Qed.

(** C8. What the underlying transport returns for the request, response
    and error alike, is what the round tripper returns; the transport is
    called once, with the request as it came in, and the network is left
    as that one call left it. *)
Theorem transport_result_returned_unchanged (cfg : ProxyConfig) (r : Request) (w : World) :
  match MakeRoundTripper cfg with
  | Err _ => False
  | Ok rt =>
      fst (RoundTrip rt r w) = fst (transport_of cfg r (net w))
      /\ net (snd (RoundTrip rt r w)) = snd (transport_of cfg r (net w))
      /\ forwarded (trace (snd (RoundTrip rt r w))) = forwarded (trace w) ++ [r]
  end.
Proof.
  destruct (RoundTrip_run cfg r w) as (rt & Hrt & Hrun).
  rewrite Hrt. cbv zeta in Hrun. rewrite Hrun. cbn [fst snd net trace].
  repeat split. rewrite forwarded_app. reflexivity.
Qed.

(** C1 (the code at the failing input). With a drop probability of 1
    the request still goes to the underlying transport, once, and the
    transport's result is what is returned. *)
Theorem drop_probability_one_still_forwards (cfg : ProxyConfig) (r : Request) (w : World) :
  match MakeRoundTripper (set_ProbDrop cfg f64_one) with
  | Err _ => False
  | Ok rt =>
      fst (RoundTrip rt r w) = fst (transport_of cfg r (net w))
      /\ forwarded (trace (snd (RoundTrip rt r w))) = forwarded (trace w) ++ [r]
  end.
Proof.
  destruct (RoundTrip_run (set_ProbDrop cfg f64_one) r w) as (rt & Hrt & Hrun).
  rewrite Hrt. cbv zeta in Hrun. rewrite Hrun. cbn [fst snd trace].
  split; [reflexivity|]. rewrite forwarded_app. reflexivity.
Qed.

(** The drop probability and the seed are never read. *)
Lemma ProbDrop_never_read (cfg : ProxyConfig) (p : float64) :
  MakeRoundTripper (set_ProbDrop cfg p) = MakeRoundTripper cfg.
Proof. reflexivity. Qed.

Lemma Seed_never_read (cfg : ProxyConfig) (seed : Z) :
  MakeRoundTripper (set_Seed cfg seed) = MakeRoundTripper cfg.
Proof. reflexivity. Qed.

(** C9. The logger has no part in the outcome: under any two choices of
    logger, configured or left to the default, the same request in the
    same world gets the same response and error, leaves the same random
    source and network, and the same sleeps and forwarding in the same
    order; only the log lines name a different logger. *)
Theorem logger_does_not_change_outcome
    (cfg : ProxyConfig) (lg1 lg2 : option log_Logger) (r : Request) (w : World) :
  match MakeRoundTripper (set_Logger cfg lg1), MakeRoundTripper (set_Logger cfg lg2) with
  | Ok rt1, Ok rt2 =>
      fst (RoundTrip rt1 r w) = fst (RoundTrip rt2 r w)
      /\ rand_src (snd (RoundTrip rt1 r w)) = rand_src (snd (RoundTrip rt2 r w))
      /\ net (snd (RoundTrip rt1 r w)) = net (snd (RoundTrip rt2 r w))
      /\ effects (trace (snd (RoundTrip rt1 r w))) = effects (trace (snd (RoundTrip rt2 r w)))
  | _, _ => False
  end.
Proof.
  destruct (RoundTrip_run (set_Logger cfg lg1) r w) as (rt1 & Hrt1 & Hrun1).
  destruct (RoundTrip_run (set_Logger cfg lg2) r w) as (rt2 & Hrt2 & Hrun2).
  rewrite Hrt1, Hrt2. cbv zeta in Hrun1, Hrun2. rewrite Hrun1, Hrun2.
  cbn [fst snd rand_src net trace]. repeat split.
  rewrite !effects_app. reflexivity.
Qed.

(** [MakeRoundTripper] has no failing path. *)
Lemma MakeRoundTripper_Ok (cfg : ProxyConfig) : exists rt, MakeRoundTripper cfg = Ok rt.
Proof. eexists. reflexivity. Qed.

(** C10 (amended). [MakeRoundTripper] returns a nil error for every
    configuration, so [MakeProxy] fails only as [url.Parse] does, with
    the parser's error.  When the destination parses, a proxy comes
    back with a nil error: its transport is the round tripper of the
    configuration, which hands every request to the underlying
    transport and returns what that gives; its [Rewrite] routes every
    request to the scheme and host of the parsed URL and keeps the
    inbound [Host].  The requests it sends are routable exactly when
    the parsed URL has a scheme and a host. *)
Theorem construction_fails_only_on_parse (cfg : ProxyConfig) :
  is_Ok (MakeRoundTripper cfg) = true
  /\ match url_Parse (DestURL cfg) with
     | Err e => MakeProxy cfg = Err e
     | Ok u =>
         exists p,
           MakeProxy cfg = Ok p
           /\ MakeRoundTripper cfg = Ok (RP_Transport p)
           /\ (forall (r : Request) (w : World),
                 fst (RoundTrip (RP_Transport p) r w) = fst (transport_of cfg r (net w))
                 /\ net (snd (RoundTrip (RP_Transport p) r w))
                    = snd (transport_of cfg r (net w))
                 /\ forwarded (trace (snd (RoundTrip (RP_Transport p) r w)))
                    = forwarded (trace w) ++ [r])
           /\ (forall pr : ProxyRequest,
                 let out := Out (Rewrite p pr) in
                 Scheme (Req_URL out) = Scheme u
                 /\ Host (Req_URL out) = Host u
                 /\ Req_Host out = Req_Host (In pr)
                 /\ routable out
                    = negb (Scheme u =? "")%string && negb (Host u =? "")%string)
     end.
Proof.
  split; [reflexivity|].
  unfold MakeProxy. destruct (url_Parse (DestURL cfg)) as [u|e]; [|reflexivity].
  destruct (MakeRoundTripper cfg) as [rt|e] eqn:Hrt; [|discriminate].
  eexists. split; [reflexivity|]. cbn [RP_Transport Rewrite].
  split; [reflexivity|]. split.
  - intros r w. destruct (RoundTrip_run cfg r w) as (rt' & Hrt' & Hrun).
    rewrite Hrt in Hrt'. injection Hrt' as <-. cbv zeta in Hrun. rewrite Hrun.
    cbn [fst snd net trace]. repeat split. rewrite forwarded_app. reflexivity.
  - intros pr. unfold SetURL, Set_Out_Host, rewriteRequestURL, routable.
    cbn [In Out]. destruct (joinURLPath u (Req_URL (Out pr))) as [path rawPath].
    cbn. repeat split.
Qed.

(** C3 (amended). [MakeProxy] fails exactly when [url.Parse] rejects
    the destination string, and then with the parser's own error and no
    proxy; it is a pure function of the configuration, so this happens
    before any request is handled. *)
Theorem MakeProxy_fails_as_Parse_fails (cfg : ProxyConfig) (e : Error) :
  MakeProxy cfg = Err e <-> url_Parse (DestURL cfg) = Err e.
Proof.
  unfold MakeProxy. destruct (url_Parse (DestURL cfg)) as [u|e'].
  - simpl. split; discriminate.
  - split; intros H; injection H as ->; reflexivity.
Qed.

(** C7. The [Rewrite] function of the assembled proxy gives the
    outbound request the scheme and host of the parsed destination and
    the request path joined below the destination's, sets the outbound
    [Host] to the inbound request's, and leaves the inbound request
    alone; so the host sent to the destination is the client's, unless
    the client gave none. *)
Theorem Rewrite_targets_destination_keeps_Host
    (cfg : ProxyConfig) (u : URL) (p : ReverseProxy) (pr : ProxyRequest) :
  url_Parse (DestURL cfg) = Ok u ->
  MakeProxy cfg = Ok p ->
  let out := Out (Rewrite p pr) in
  Scheme (Req_URL out) = Scheme u
  /\ Host (Req_URL out) = Host u
  /\ (Path (Req_URL out), RawPath (Req_URL out)) = joinURLPath u (Req_URL (Out pr))
  /\ Req_Host out = Req_Host (In pr)
  /\ In (Rewrite p pr) = In pr
  /\ sent_Host out = (if Req_Host (In pr) =? "" then Host u else Req_Host (In pr))%string.
Proof.
  intros Hu Hp. unfold MakeProxy in Hp. rewrite Hu in Hp. simpl in Hp.
  injection Hp as <-. cbn [Rewrite]. unfold SetURL, Set_Out_Host, rewriteRequestURL.
  cbn [In Out]. destruct (joinURLPath u (Req_URL (Out pr))) as [path rawPath].
  unfold sent_Host. cbn. repeat split.
Qed.

End RoundTrips.

(** ** Closed instances, in the concrete environment *)

(** C5 (instance). A rate of 0 before the request and of -1 after it:
    both delays are zero and the pending draw stays in the source. *)
Lemma zero_rate_example :
  stage_delay undelayed_config Pre (demo_world [draw_600]) = (0, demo_world [draw_600])
  /\ stage_delay undelayed_config Post (demo_world [draw_600]) = (0, demo_world [draw_600]).
Proof.
  split.
  - exact (proj1 (zero_rate_no_delay_no_draw undelayed_config Pre demo_request
                    (demo_world [draw_600]) eq_refl)).
  - exact (proj1 (zero_rate_no_delay_no_draw undelayed_config Post demo_request
                    (demo_world [draw_600]) eq_refl)).
Defined.

(** C4 (instance). At rate 2 with a maximum of 250 ms, a draw of 7.5
    gives 3.75 and a delay of 3 ms; a draw of 600 gives 300, clamped to
    250 ms. *)
Lemma delay_example :
  fst (stage_delay delayed_config Pre (demo_world [draw_7_5])) = 3 * time_Millisecond
  /\ fst (stage_delay delayed_config Pre (demo_world [draw_600])) = 250 * time_Millisecond.
Proof.
  split.
  - destruct (delay_clamped_then_truncated delayed_config Pre (demo_world [draw_7_5])
                eq_refl eq_refl eq_refl eq_refl eq_refl)
      as (k & kmax & Hrun & _ & Hk & _).
    rewrite Hrun. vm_compute in Hk. injection Hk as <-. reflexivity.
  - destruct (delay_clamped_then_truncated delayed_config Pre (demo_world [draw_600])
                eq_refl eq_refl eq_refl eq_refl eq_refl)
      as (k & kmax & Hrun & _ & Hk & _).
    rewrite Hrun. vm_compute in Hk. injection Hk as <-. reflexivity.
Defined.

(** C4 (counterexample). A rate of 2^-44 and a maximum of 2^44 ms are
    both positive; a draw of 1 then gives the value 2^44, which is not
    above the maximum, and 2^44 * 10^6 nanoseconds wraps around int64:
    the delay is negative, outside [0, max]. *)
Lemma delay_beyond_Duration_wraps :
  f64_lt f64_zero (stage_rate huge_max_config Pre) = true
  /\ f64_le f64_zero (stage_max huge_max_config Pre) = true
  /\ next_draw (stage_rate huge_max_config Pre) (demo_world [f64_one]) = f64_ldexp 1 44
  /\ fst (stage_delay huge_max_config Pre (demo_world [f64_one])) = -854558029293551616
  /\ ~ (0 <= fst (stage_delay huge_max_config Pre (demo_world [f64_one]))).
Proof.
  assert (H : fst (stage_delay huge_max_config Pre (demo_world [f64_one]))
              = -854558029293551616) by (vm_compute; reflexivity).
  repeat split; try (vm_compute; reflexivity); try exact H.
  rewrite H. lia.
Qed.

(** C3 (counterexample). The empty string parses, as the zero URL,
    which has no scheme and so is not absolute; [MakeProxy] returns a
    proxy for it. *)
Lemma empty_destination_is_accepted :
  ~ parses_as_absolute (DestURL (destination_config ""))
  /\ url_Parse (DestURL (destination_config "")) = Ok URL_zero
  /\ is_Ok (MakeProxy (destination_config "")) = true.
Proof.
  split; [|split; reflexivity].
  intros (u & Hu & Habs). vm_compute in Hu. injection Hu as <-. discriminate.
Qed.

(** C3 (instance). The destination [:] has no scheme before its colon:
    the parser's error is what [MakeProxy] returns. *)
Lemma missing_scheme_is_rejected :
  MakeProxy (destination_config ":")
  = Err (url_Error "parse" ":" (errors_New "missing protocol scheme")).
Proof.
  apply (proj2 (MakeProxy_fails_as_Parse_fails (destination_config ":") _)).
  reflexivity.
Defined.

(** C7 (instance). A request for host client.example through a proxy
    for http://backend.example:8080/base. *)
Lemma Rewrite_example :
  let out := Out (Rewrite demo_proxy {| In := demo_request; Out := demo_request |}) in
  Scheme (Req_URL out) = "http"
  /\ Host (Req_URL out) = "backend.example:8080"
  /\ Req_Host out = "client.example"
  /\ sent_Host out = "client.example".
Proof.
  destruct (Rewrite_targets_destination_keeps_Host delayed_config demo_URL demo_proxy
              {| In := demo_request; Out := demo_request |} eq_refl eq_refl)
    as (H1 & H2 & _ & H4 & _ & H6).
  cbv zeta. rewrite H1, H2, H4, H6. repeat split.
Defined.

(** C10 (counterexample). The empty destination parses, and a proxy
    comes back with a nil error, but not a usable one: the requests it
    rewrites have neither scheme nor host to be sent to. *)
Lemma empty_destination_proxy_routes_nowhere :
  url_Parse (DestURL (destination_config "")) = Ok URL_zero
  /\ match MakeProxy (destination_config "") with
     | Err _ => False
     | Ok p =>
         let out := Out (Rewrite p {| In := demo_request; Out := demo_request |}) in
         Scheme (Req_URL out) = ""
         /\ Host (Req_URL out) = ""
         /\ routable out = false
     end.
Proof. vm_compute. repeat split. Qed.

(** C10 (instance). The destination of the examples parses with a
    scheme and a host: the proxy forwards a request to the demo
    backend and routes it to backend.example:8080. *)
Lemma construction_example :
  match MakeProxy delayed_config with
  | Err _ => False
  | Ok p =>
      fst (RoundTrip (RP_Transport p) demo_request (demo_world []))
      = (Some (demo_response demo_request), None)
      /\ routable (Out (Rewrite p {| In := demo_request; Out := demo_request |})) = true
  end.
Proof.
  destruct (construction_fails_only_on_parse delayed_config) as [_ H].
  change (url_Parse (DestURL delayed_config)) with (Ok demo_URL) in H.
  destruct H as (p & Hp & _ & Hrt & Hrw).
  rewrite Hp. split.
  - exact (proj1 (Hrt demo_request (demo_world []))).
  - destruct (Hrw {| In := demo_request; Out := demo_request |}) as (_ & _ & _ & H).
    exact H.
Defined.

(** C2 (the code at the failing input). Two round trippers built from
    one configuration, seed 42, in one process: the first request of
    the first sleeps 3 ms and 4 ms, the first request of the second
    1 ms and 2 ms, because both draw from the one package-level source
    and neither reads the seed. *)
Theorem same_seed_different_delays :
  match MakeRoundTripper delayed_config, MakeRoundTripper delayed_config with
  | Ok rt1, Ok rt2 =>
      let w0 := demo_world [draw_7_5; f64_of_Z 9; f64_of_Z 2; f64_of_Z 2] in
      let w1 := snd (RoundTrip rt1 demo_request w0) in
      let w1' := {| rand_src := rand_src w1; net := net w1; trace := [] |} in
      let w2 := snd (RoundTrip rt2 demo_request w1') in
      Seed delayed_config = 42
      /\ sleeps (trace w1) = [3 * time_Millisecond; 4 * time_Millisecond]
      /\ sleeps (trace w2) = [1 * time_Millisecond; 2 * time_Millisecond]
  | _, _ => False
  end.
Proof. vm_compute. repeat split. Qed.

(** A request whose forwarding fails: the error comes back as the
    transport gave it, after the pre-delay of 3 ms and the post-delay
    of 4 ms. *)
Example refused_request_is_delayed_and_reported :
  match MakeRoundTripper refused_config with
  | Ok rt =>
      let out := RoundTrip rt demo_request (demo_world [draw_7_5; f64_of_Z 9]) in
      fst out = (None, Some (errors_New "connection refused"))
      /\ sleeps (trace (snd out)) = [3 * time_Millisecond; 4 * time_Millisecond]
      /\ forwarded (trace (snd out)) = [demo_request]
  | Err _ => False
  end.
Proof. vm_compute. repeat split. Qed.

(** * Further properties of the package *)

(** ** float64: the order as an order of integers *)

Lemma compare_scaled_lt (m1 m2 : positive) (e1 e2 K : Z) :
  valid_float64 (S754_finite false m1 e1) = true ->
  valid_float64 (S754_finite false m2 e2) = true ->
  f64_lt (S754_finite false m1 e1) (S754_finite false m2 e2) = true ->
  1074 <= K ->
  Zpos m1 * 2 ^ (e1 + K) < Zpos m2 * 2 ^ (e2 + K).
Proof.
  intros V1 V2 Hlt HK.
  apply valid_finite_inv in V1. apply valid_finite_inv in V2.
  destruct V1 as (He1 & Hm1 & Hn1), V2 as (He2 & Hm2 & Hn2).
  unfold f64_lt, SFltb in Hlt. simpl in Hlt.
  destruct (Z.compare_spec e1 e2) as [Heq|Hl|Hg].
  - subst e2. apply Z.mul_lt_mono_pos_r.
    + apply Z.pow_pos_nonneg; lia.
    + change (Pos.compare_cont Eq m1 m2) with (Pos.compare m1 m2) in Hlt.
      destruct (Pos.compare_spec m1 m2) as [Hm|Hm|Hm]; try discriminate; lia.
  - clear Hlt. specialize (Hn2 ltac:(lia)).
    assert (H2 : 2 ^ (e1 + K + 1) <= 2 ^ (e2 + K)) by (apply Z.pow_le_mono_r; lia).
    rewrite Z.pow_add_r in H2 by lia.
    assert (0 < 2 ^ (e1 + K)) by (apply Z.pow_pos_nonneg; lia).
    change (2 ^ 53) with (2 * 2 ^ 52) in Hm1.
    set (p52 := 2 ^ 52) in *. assert (0 < p52) by (subst p52; lia).
    clearbody p52. nia.
  - discriminate.
Qed.

Lemma f64_rank_finite (m : positive) (e : Z) :
  valid_float64 (S754_finite false m e) = true ->
  0 < f64_rank (S754_finite false m e) < 2 ^ 2100.
Proof.
  intros V. apply valid_finite_inv in V. destruct V as (He & Hm & _).
  cbv beta iota delta [f64_rank].
  assert (0 < 2 ^ (e + 1074)) by (apply Z.pow_pos_nonneg; lia).
  assert (2 ^ (e + 1074) <= 2 ^ 2045) by (apply Z.pow_le_mono_r; lia).
  change (2 ^ 2100) with (2 ^ 53 * 2 ^ 2045 * 4).
  set (a := 2 ^ (e + 1074)) in *. set (b := 2 ^ 2045) in *. set (c := 2 ^ 53) in *.
  assert (0 < c) by (subst c; lia).
  clearbody a b c.
  assert (0 < Zpos m * a) by (apply Z.mul_pos_pos; lia).
  assert (Zpos m * a < c * a) by (apply Z.mul_lt_mono_pos_r; lia).
  assert (c * a <= c * b) by (apply Z.mul_le_mono_nonneg_l; lia).
  assert (0 < c * b) by (apply Z.mul_pos_pos; lia).
  lia.
Qed.

(** On valid values that are not negative, [<=] and [<] of float64 are
    those of the ranks. *)
Lemma f64_le_rank (x y : float64) :
  valid_float64 x = true -> valid_float64 y = true ->
  f64_le f64_zero x = true -> f64_le f64_zero y = true ->
  f64_le x y = true -> f64_rank x <= f64_rank y.
Proof.
  intros Vx Vy Hx Hy Hle.
  assert (Hinf : 0 < 2 ^ 2100) by (apply Z.pow_pos_nonneg; lia).
  destruct (f64_nonneg_inv x Hx) as [[a ->]|[(m & e & ->)| ->]];
    destruct (f64_nonneg_inv y Hy) as [[b ->]|[(m' & e' & ->)| ->]];
    try (simpl in Hle; discriminate); try (cbv beta iota delta [f64_rank]; lia).
  - apply compare_scaled; try assumption. lia.
  - pose proof (f64_rank_finite m e Vx). cbv beta iota delta [f64_rank] in *. lia.
Qed.

Lemma f64_lt_rank (x y : float64) :
  valid_float64 x = true -> valid_float64 y = true ->
  f64_le f64_zero x = true -> f64_le f64_zero y = true ->
  f64_lt x y = true -> f64_rank x < f64_rank y.
Proof.
  intros Vx Vy Hx Hy Hlt.
  assert (Hinf : 0 < 2 ^ 2100) by (apply Z.pow_pos_nonneg; lia).
  destruct (f64_nonneg_inv x Hx) as [[a ->]|[(m & e & ->)| ->]];
    destruct (f64_nonneg_inv y Hy) as [[b ->]|[(m' & e' & ->)| ->]];
    try (simpl in Hlt; discriminate).
  - pose proof (f64_rank_finite m' e' Vy). cbv beta iota delta [f64_rank] in *. lia.
  - cbv beta iota delta [f64_rank]. lia.
  - apply compare_scaled_lt; try assumption. lia.
  - pose proof (f64_rank_finite m e Vx). cbv beta iota delta [f64_rank] in *. lia.
Qed.

(** Clamping keeps the order of the draws. *)
Lemma clamp_mono (s1 s2 max : float64) :
  valid_float64 s1 = true -> valid_float64 s2 = true -> valid_float64 max = true ->
  f64_le f64_zero s1 = true -> f64_le f64_zero s2 = true -> f64_le f64_zero max = true ->
  f64_le s1 s2 = true ->
  f64_le (if f64_gt s1 max then max else s1) (if f64_gt s2 max then max else s2) = true.
Proof.
  intros V1 V2 Vm H1 H2 Hm Hle.
  destruct (f64_gt s1 max) eqn:G1, (f64_gt s2 max) eqn:G2.
  - apply f64_le_refl. exact Hm.
  - exfalso.
    pose proof (f64_lt_rank max s1 Vm V1 Hm H1 G1).
    pose proof (f64_le_rank s1 s2 V1 V2 H1 H2 Hle).
    pose proof (f64_le_rank s2 max V2 Vm H2 Hm (f64_not_gt_le s2 max H2 Hm G2)).
    lia.
  - apply f64_not_gt_le; assumption.
  - exact Hle.
Qed.

(** ** Draws, sequences of requests, bounds *)

Section MoreProperties.
Context `{E : Env}.

Lemma advance_add (a b : nat) (s : Source) :
  advance (a + b) s = advance b (advance a s).
Proof.
  revert s. induction a as [|a IH]; intros s; simpl; [reflexivity|apply IH].
Qed.

(** A stage takes from the source the draws it uses, and nothing else. *)
Lemma stage_delay_advance (cfg : ProxyConfig) (st : Stage) (w : World) :
  rand_src (snd (stage_delay cfg st w)) = advance (draws_used cfg st) (rand_src w).
Proof.
  unfold draws_used.
  destruct st; simpl; [unfold preDelay|unfold postDelay];
    match goal with |- context [f64_le ?a ?b] => destruct (f64_le a b) end;
    unfold bind, ret, Exponential_Rand; simpl; try reflexivity;
    destruct (rand_ExpFloat64 (rand_src w)); reflexivity.
Qed.

(** A stage whose rate is not [<= 0] computes its delay from the next
    draw. *)
Lemma stage_delay_value (cfg : ProxyConfig) (st : Stage) (w : World) :
  fst (stage_delay cfg st w) =
    if f64_le (stage_rate cfg st) f64_zero then 0
    else
      let s := next_draw (stage_rate cfg st) w in
      let s := if f64_gt s (stage_max cfg st) then stage_max cfg st else s in
      int64_mul (Duration_of_float64 s) time_Millisecond.
Proof.
  unfold next_draw.
  destruct st; simpl; [unfold preDelay|unfold postDelay];
    match goal with |- context [f64_le ?a ?b] => destruct (f64_le a b) end;
    unfold bind, ret, Exponential_Rand; simpl; try reflexivity;
    destruct (rand_ExpFloat64 (rand_src w)); reflexivity.
Qed.

(** One round trip, for the round tripper of a configuration. *)
Lemma RoundTrip_of (cfg : ProxyConfig) (rt : roundTripperFunc) (r : Request) (w : World) :
  MakeRoundTripper cfg = Ok rt ->
  RoundTrip rt r w =
    (fst (transport_of cfg r (net w)),
     {| rand_src := advance (draws_used cfg Pre + draws_used cfg Post) (rand_src w);
        net := snd (transport_of cfg r (net w));
        trace := trace w ++
          round_trip_events cfg r
            (fst (stage_delay cfg Pre w))
            (fst (stage_delay cfg Post (snd (stage_delay cfg Pre w)))) |}).
Proof.
  intros Hrt. destruct (RoundTrip_run cfg r w) as (rt' & Hrt' & Hrun).
  rewrite Hrt in Hrt'. injection Hrt' as <-. cbv zeta in Hrun. rewrite Hrun.
  rewrite stage_delay_advance, stage_delay_advance, advance_add. reflexivity.
Qed.

Lemma loggers_app (a b : list Event) : loggers (a ++ b) = loggers a ++ loggers b.
Proof. unfold loggers. apply flat_map_app. Qed.

(** Requests in sequence: what the transport returns, what it is given,
    where the source and the network end up, and how the trace grows. *)
Lemma RoundTrips_run (cfg : ProxyConfig) (rt : roundTripperFunc) :
  MakeRoundTripper cfg = Ok rt ->
  forall (rs : list Request) (w : World),
    fst (RoundTrips rt rs w) = fst (transport_run (transport_of cfg) rs (net w))
    /\ net (snd (RoundTrips rt rs w)) = snd (transport_run (transport_of cfg) rs (net w))
    /\ rand_src (snd (RoundTrips rt rs w))
       = advance (List.length rs * (draws_used cfg Pre + draws_used cfg Post)) (rand_src w)
    /\ forwarded (trace (snd (RoundTrips rt rs w))) = forwarded (trace w) ++ rs
    /\ List.length (sleeps (trace (snd (RoundTrips rt rs w))))
       = (List.length (sleeps (trace w)) + 2 * List.length rs)%nat
    /\ exists ext, trace (snd (RoundTrips rt rs w)) = trace w ++ ext.
Proof.
  intros Hrt rs. induction rs as [|r rs IH]; intros w.
  - simpl. unfold ret. simpl. rewrite !app_nil_r. repeat split; try lia.
    exists []. rewrite app_nil_r. reflexivity.
  - set (w1 := {| rand_src := advance (draws_used cfg Pre + draws_used cfg Post) (rand_src w);
                  net := snd (transport_of cfg r (net w));
                  trace := trace w ++
                    round_trip_events cfg r (fst (stage_delay cfg Pre w))
                      (fst (stage_delay cfg Post (snd (stage_delay cfg Pre w)))) |}).
    assert (Hstep : RoundTrips rt (r :: rs) w
                    = (fst (transport_of cfg r (net w)) :: fst (RoundTrips rt rs w1),
                       snd (RoundTrips rt rs w1))).
    { cbn [RoundTrips]. unfold bind. rewrite (RoundTrip_of cfg rt r w Hrt). fold w1.
      destruct (RoundTrips rt rs w1). reflexivity. }
    rewrite Hstep. cbn [fst snd transport_run].
    destruct (IH w1) as (H1 & H2 & H3 & H4 & H5 & ext & H6).
    subst w1. cbn [rand_src net trace] in *.
    destruct (transport_of cfg r (net w)) as [res n'] eqn:Ht. cbn [fst snd] in *.
    destruct (transport_run (transport_of cfg) rs n') as [rest' n''] eqn:Htr.
    cbn [fst snd] in *.
    split; [rewrite H1; reflexivity|]. split; [exact H2|].
    split. { rewrite H3. rewrite <- advance_add. f_equal. }
    split. { rewrite H4. rewrite forwarded_app. simpl. rewrite <- app_assoc. reflexivity. }
    split. { rewrite H5. rewrite sleeps_app. rewrite length_app. simpl. lia. }
    eexists. rewrite H6. rewrite <- app_assoc. reflexivity.
Qed.


(** After its delay a stage leaves the world as it was, or one draw on. *)
Lemma stage_delay_world (cfg : ProxyConfig) (st : Stage) (w : World) :
  snd (stage_delay cfg st w)
  = if f64_le (stage_rate cfg st) f64_zero then w else consume_draw w.
Proof.
  unfold consume_draw. destruct w as [s n t].
  destruct st; simpl; [unfold preDelay|unfold postDelay];
    match goal with |- context [f64_le ?a ?b] => destruct (f64_le a b) end;
    unfold bind, ret, Exponential_Rand; simpl; try reflexivity;
    destruct (rand_ExpFloat64 s); reflexivity.
Qed.

(** X1. Handling a list of requests takes from the package-level source
    one draw per request for each stage whose rate is not [<= 0], and
    nothing more: the source ends [n * (pre + post)] draws on. *)
Theorem requests_consume_one_draw_per_active_stage
    (cfg : ProxyConfig) (rs : list Request) (w : World) :
  match MakeRoundTripper cfg with
  | Err _ => False
  | Ok rt =>
      rand_src (snd (RoundTrips rt rs w))
      = advance (List.length rs * (draws_used cfg Pre + draws_used cfg Post)) (rand_src w)
  end.
Proof.
  destruct (MakeRoundTripper cfg) as [rt|e] eqn:Hrt.
  - destruct (RoundTrips_run cfg rt Hrt rs w) as (_ & _ & H & _). exact H.
  - discriminate.
Qed.

(** X2. The two generators share one source.  When a request is
    handled with nothing else drawing from that source meanwhile (no
    other request under way, a transport that does not use it), its
    post-delay is computed from the draw after the one its pre-delay
    used, and from the very next draw when the pre-delay is switched
    off. *)
Theorem post_delay_draws_after_pre_delay
    (cfg : ProxyConfig) (r : Request) (w : World) :
  match MakeRoundTripper cfg with
  | Err _ => False
  | Ok rt =>
      sleeps (trace (snd (RoundTrip rt r w))) =
        sleeps (trace w) ++
        [ fst (stage_delay cfg Pre w);
          fst (stage_delay cfg Post
                 (if f64_le (PreDelayRate cfg) f64_zero then w else consume_draw w)) ]
  end.
Proof.
  destruct (MakeRoundTripper cfg) as [rt|e] eqn:Hrt; [|discriminate].
  rewrite (RoundTrip_of cfg rt r w Hrt). cbn [snd trace].
  rewrite sleeps_app. rewrite (stage_delay_world cfg Pre w). reflexivity.
Qed.

(** X3. A configuration that sets neither [Transport] nor [Logger]
    sends its requests through [http.DefaultTransport] and writes its
    five log lines per request to [log.Default()]. *)
Theorem unset_Transport_and_Logger_fall_back
    (cfg : ProxyConfig) (r : Request) (w : World) :
  Transport cfg = None ->
  Logger cfg = None ->
  match MakeRoundTripper cfg with
  | Err _ => False
  | Ok rt =>
      fst (RoundTrip rt r w) = fst (http_DefaultTransport r (net w))
      /\ net (snd (RoundTrip rt r w)) = snd (http_DefaultTransport r (net w))
      /\ loggers (trace (snd (RoundTrip rt r w))) = loggers (trace w) ++ repeat log_Default 5
  end.
Proof.
  intros Ht Hl.
  destruct (MakeRoundTripper cfg) as [rt|e] eqn:Hrt; [|discriminate].
  rewrite (RoundTrip_of cfg rt r w Hrt). cbn [fst snd net trace].
  unfold transport_of. rewrite Ht. split; [reflexivity|]. split; [reflexivity|].
  rewrite loggers_app. unfold round_trip_events, logger_of. rewrite Hl. reflexivity.
Qed.

(** X5. Requests handled one after the other reach the transport once
    each, unchanged and in their order; the responses and errors are
    those the transport gives when called directly on the same
    requests; and each request has slept twice. *)
Theorem requests_forwarded_once_in_order
    (cfg : ProxyConfig) (rs : list Request) (w : World) :
  match MakeRoundTripper cfg with
  | Err _ => False
  | Ok rt =>
      fst (RoundTrips rt rs w) = fst (transport_run (transport_of cfg) rs (net w))
      /\ net (snd (RoundTrips rt rs w)) = snd (transport_run (transport_of cfg) rs (net w))
      /\ forwarded (trace (snd (RoundTrips rt rs w))) = forwarded (trace w) ++ rs
      /\ List.length (sleeps (trace (snd (RoundTrips rt rs w))))
         = (List.length (sleeps (trace w)) + 2 * List.length rs)%nat
  end.
Proof.
  destruct (MakeRoundTripper cfg) as [rt|e] eqn:Hrt; [|discriminate].
  destruct (RoundTrips_run cfg rt Hrt rs w) as (H1 & H2 & _ & H4 & H5 & _).
  repeat split; assumption.
Qed.

(** X6. With both rates [<= 0] the round tripper adds nothing but its
    log lines and two sleeps of zero around the forwarding, and leaves
    the random source alone. *)
Theorem zero_rates_leave_source_and_timing_alone
    (cfg : ProxyConfig) (r : Request) (w : World) :
  f64_le (PreDelayRate cfg) f64_zero = true ->
  f64_le (PostDelayRate cfg) f64_zero = true ->
  match MakeRoundTripper cfg with
  | Err _ => False
  | Ok rt =>
      rand_src (snd (RoundTrip rt r w)) = rand_src w
      /\ effects (trace (snd (RoundTrip rt r w)))
         = effects (trace w) ++ [EvSleep 0; EvRoundTrip r; EvSleep 0]
  end.
Proof.
  intros Hpre Hpost.
  destruct (MakeRoundTripper cfg) as [rt|e] eqn:Hrt; [|discriminate].
  rewrite (RoundTrip_of cfg rt r w Hrt). cbn [snd rand_src trace].
  unfold draws_used. simpl stage_rate. rewrite Hpre, Hpost.
  split; [reflexivity|].
  rewrite effects_app.
  rewrite (stage_delay_zero_rate cfg Pre w Hpre). cbn [fst snd].
  rewrite (stage_delay_zero_rate cfg Post w Hpost). reflexivity.
Qed.


Lemma f64_finite_nonneg_inv (x : float64) :
  f64_finite_nonneg x = true ->
  f64_le f64_zero x = true /\ x <> S754_infinity false.
Proof.
  destruct x as [s|s| |s m e]; simpl; try discriminate.
  - intros _. split; [reflexivity|discriminate].
  - destruct s; [discriminate|]. intros _. split; [reflexivity|discriminate].
Qed.

(** Under sane settings, and with a draw as [rand.ExpFloat64] gives
    them, the delay of a stage is a whole number of milliseconds
    between zero and the integer part of the maximum. *)
Lemma sane_stage_delay (cfg : ProxyConfig) (st : Stage) (w : World) :
  sane_stage cfg st = true ->
  f64_finite_nonneg (fst (rand_ExpFloat64 (rand_src w))) = true ->
  exists k kmax : Z,
    f64_trunc (stage_max cfg st) = Some kmax
    /\ fst (stage_delay cfg st w) = k * time_Millisecond
    /\ 0 <= k <= kmax.
Proof.
  unfold sane_stage. intros Hsane Hdraw.
  apply andb_true_iff in Hsane. destruct Hsane as [Hsane Hfit].
  apply andb_true_iff in Hsane. destruct Hsane as [Hsane Vmax].
  apply andb_true_iff in Hsane. destruct Hsane as [Hrate Hmax].
  destruct (f64_le (stage_rate cfg st) f64_zero) eqn:Hle.
  - assert (Hk : exists kmax, f64_trunc (stage_max cfg st) = Some kmax).
    { unfold fits_Duration_ms in Hfit.
      destruct (f64_trunc (stage_max cfg st)) as [kmax|]; [eauto|discriminate]. }
    destruct Hk as [kmax Hk].
    destruct (f64_trunc_le f64_zero (stage_max cfg st) kmax eq_refl Vmax eq_refl Hmax Hk)
      as (k0 & Hk0 & Hrange).
    simpl in Hk0. injection Hk0 as <-.
    exists 0, kmax. rewrite (stage_delay_zero_rate cfg st w Hle).
    repeat split; try assumption; try lia.
  - simpl in Hrate.
    destruct (f64_finite_nonneg_inv _ Hdraw) as [H0 Hfin].
    pose proof (next_draw_nonneg (stage_rate cfg st) w Hrate H0 Hfin) as Hs.
    pose proof (next_draw_valid (stage_rate cfg st) w) as Vs.
    destruct (clamped_duration _ _ Vs Vmax Hs Hmax Hfit) as (k & kmax & Hk & Hkmax & Hrange & Hd).
    exists k, kmax. rewrite (stage_delay_draws cfg st w Hrate). cbv zeta. cbn [fst].
    repeat split; try assumption; lia.
Qed.

(** X7. Under sane settings of both stages, and with the next two draws
    of the source finite and not negative, the time a request is made to
    wait is bounded: each of its two sleeps is a whole number of
    milliseconds, at least zero and at most the integer part of the
    stage's maximum. *)
Theorem round_trip_delays_bounded (cfg : ProxyConfig) (r : Request) (w : World) :
  sane_stage cfg Pre = true ->
  sane_stage cfg Post = true ->
  f64_finite_nonneg (fst (rand_ExpFloat64 (rand_src w))) = true ->
  f64_finite_nonneg (fst (rand_ExpFloat64 (advance 1 (rand_src w)))) = true ->
  match MakeRoundTripper cfg with
  | Err _ => False
  | Ok rt =>
      exists kpre kpost maxpre maxpost : Z,
        sleeps (trace (snd (RoundTrip rt r w)))
        = sleeps (trace w) ++ [kpre * time_Millisecond; kpost * time_Millisecond]
        /\ f64_trunc (PreDelayMax cfg) = Some maxpre
        /\ f64_trunc (PostDelayMax cfg) = Some maxpost
        /\ 0 <= kpre <= maxpre
        /\ 0 <= kpost <= maxpost
  end.
Proof.
  intros Spre Spost D0 D1.
  destruct (MakeRoundTripper cfg) as [rt|e] eqn:Hrt; [|discriminate].
  rewrite (RoundTrip_of cfg rt r w Hrt). cbn [snd trace]. rewrite sleeps_app.
  destruct (sane_stage_delay cfg Pre w Spre D0) as (kpre & maxpre & Hmpre & Hdpre & Hrpre).
  assert (D : f64_finite_nonneg
                (fst (rand_ExpFloat64 (rand_src (snd (stage_delay cfg Pre w))))) = true).
  { rewrite stage_delay_advance. unfold draws_used.
    destruct (f64_le (stage_rate cfg Pre) f64_zero); assumption. }
  destruct (sane_stage_delay cfg Post (snd (stage_delay cfg Pre w)) Spost D)
    as (kpost & maxpost & Hmpost & Hdpost & Hrpost).
  exists kpre, kpost, maxpre, maxpost.
  unfold round_trip_events. cbn [sleeps flat_map app].
  rewrite Hdpre, Hdpost. repeat split; try assumption; lia.
Qed.

(** X8. A negative maximum wins over every draw, when it is finite and
    its integer part in milliseconds fits int64: with a positive rate
    one draw is still made, but the delay is the integer part of the
    maximum, in milliseconds, which is not positive. *)
Theorem negative_max_replaces_every_draw
    (cfg : ProxyConfig) (st : Stage) (w : World) (k : Z) :
  f64_lt f64_zero (stage_rate cfg st) = true ->
  f64_lt (stage_max cfg st) f64_zero = true ->
  f64_le f64_zero (next_draw (stage_rate cfg st) w) = true ->
  f64_trunc (stage_max cfg st) = Some k ->
  int64_min <= k * time_Millisecond ->
  stage_delay cfg st w = (k * time_Millisecond, consume_draw w) /\ k <= 0.
Proof.
  intros Hrate Hneg Hs Hk Hmin.
  rewrite (stage_delay_draws cfg st w Hrate). cbv zeta.
  set (s := next_draw (stage_rate cfg st) w) in *.
  set (max := stage_max cfg st) in *.
  assert (Hgt : f64_gt s max = true).
  { unfold f64_gt, f64_lt, SFltb in *.
    destruct (f64_nonneg_inv s Hs) as [[a ->]|[(m & e & ->)| ->]];
      destruct max as [b|b| |b m' e']; simpl in Hneg; try discriminate;
      destruct b; simpl in Hneg; try discriminate; reflexivity. }
  rewrite Hgt.
  assert (Hk0 : k <= 0).
  { clearbody max. destruct max as [b|b| |b m' e']; simpl in Hk; try discriminate;
      injection Hk as <-.
    unfold f64_lt, SFltb in Hneg. simpl in Hneg.
    destruct b; [|discriminate]. simpl.
    pose proof (Z.shiftl_nonneg (Zpos m') e') as [_ H]. specialize (H ltac:(lia)). lia. }
  split; [|exact Hk0]. f_equal.
  unfold Duration_of_float64, int64_mul. rewrite Hk.
  unfold time_Millisecond, int64_min in *.
  assert (Hin : in_int64 k = true).
  { unfold in_int64, int64_min, int64_max. apply andb_true_iff.
    split; apply Z.leb_le; lia. }
  rewrite Hin. apply wrap64_small.
  unfold in_int64, int64_min, int64_max. apply andb_true_iff.
  split; apply Z.leb_le; lia.
Qed.

(** X10. [Rewrite] edits the outbound URL and [Host] and nothing else:
    the method, the headers and the body of the outbound request go
    through untouched, as do the user, the opaque part and the fragment
    of its URL. *)
Theorem Rewrite_keeps_method_headers_body
    (cfg : ProxyConfig) (p : ReverseProxy) (pr : ProxyRequest) :
  MakeProxy cfg = Ok p ->
  let out := Out (Rewrite p pr) in
  Method out = Method (Out pr)
  /\ Header out = Header (Out pr)
  /\ Body out = Body (Out pr)
  /\ User (Req_URL out) = User (Req_URL (Out pr))
  /\ Opaque (Req_URL out) = Opaque (Req_URL (Out pr))
  /\ Fragment (Req_URL out) = Fragment (Req_URL (Out pr)).
Proof.
  intros Hp. unfold MakeProxy in Hp.
  destruct (url_Parse (DestURL cfg)) as [u|e]; [|discriminate].
  simpl in Hp. injection Hp as <-. cbn [Rewrite].
  unfold SetURL, Set_Out_Host, rewriteRequestURL. cbn [In Out].
  destruct (joinURLPath u (Req_URL (Out pr))) as [path rawPath].
  cbn. repeat split.
Qed.

(** X11. A destination with an ASCII control byte before its fragment,
    a trailing newline for one, is refused: [MakeProxy] returns the
    parser's error about it. *)
Theorem control_byte_in_destination_is_rejected (cfg : ProxyConfig) :
  stringContainsCTLByte (fst (fst (strings_Cut (DestURL cfg) "#"))) = true ->
  MakeProxy cfg
  = Err (url_Error "parse" (fst (fst (strings_Cut (DestURL cfg) "#")))
           (errors_New "net/url: invalid control character in URL")).
Proof.
  intros Hctl. unfold MakeProxy, url_Parse.
  destruct (strings_Cut (DestURL cfg) "#") as [[u frag] found]. cbn [fst] in *.
  unfold url_parse. rewrite Hctl. reflexivity.
Qed.

(** X12. A destination that begins with a colon has no scheme to route
    to: [MakeProxy] fails on it. *)
Theorem destination_without_scheme_before_colon_is_rejected
    (cfg : ProxyConfig) (rest : string) :
  DestURL cfg = String ":" rest ->
  exists e, MakeProxy cfg = Err e.
Proof.
  intros Hd. unfold MakeProxy, url_Parse. rewrite Hd.
  cbn [strings_Cut]. change (Ascii.eqb ":" "#") with false. cbv iota.
  destruct (strings_Cut rest "#") as [[before after] found].
  unfold url_parse.
  destruct (stringContainsCTLByte (String ":" before)); [eexists; reflexivity|].
  change (String ":" before =? "*")%string with false. cbv iota.
  unfold getScheme. cbn. eexists. reflexivity.
Qed.

(** X9. A larger draw never gives a shorter delay: for a stage with a
    positive rate and a sane maximum, if the value drawn in one world is
    at most the value drawn in another, so are the delays. *)
Theorem larger_draw_never_shorter_delay
    (cfg : ProxyConfig) (st : Stage) (w1 w2 : World) :
  f64_lt f64_zero (stage_rate cfg st) = true ->
  sane_stage cfg st = true ->
  f64_le f64_zero (next_draw (stage_rate cfg st) w1) = true ->
  f64_le (next_draw (stage_rate cfg st) w1) (next_draw (stage_rate cfg st) w2) = true ->
  0 <= fst (stage_delay cfg st w1) <= fst (stage_delay cfg st w2).
Proof.
  intros Hrate Hsane H1 Hle.
  unfold sane_stage in Hsane.
  apply andb_true_iff in Hsane. destruct Hsane as [Hsane Hfit].
  apply andb_true_iff in Hsane. destruct Hsane as [Hsane Vmax].
  apply andb_true_iff in Hsane. destruct Hsane as [_ Hmax].
  set (s1 := next_draw (stage_rate cfg st) w1) in *.
  set (s2 := next_draw (stage_rate cfg st) w2) in *.
  set (max := stage_max cfg st) in *.
  pose proof (next_draw_valid (stage_rate cfg st) w1) as V1. fold s1 in V1.
  pose proof (next_draw_valid (stage_rate cfg st) w2) as V2. fold s2 in V2.
  assert (H2 : f64_le f64_zero s2 = true).
  { clearbody s1 s2.
    destruct (f64_nonneg_inv s1 H1) as [[a ->]|[(m & e & ->)| ->]];
      destruct s2 as [b|b| |b m' e']; simpl in Hle; try discriminate;
      destruct b; simpl in Hle; try discriminate; reflexivity. }
  destruct (clamped_duration s1 max V1 Vmax H1 Hmax Hfit) as (k1 & kmax & Hk1 & Hkmax & Hr1 & Hd1).
  destruct (clamped_duration s2 max V2 Vmax H2 Hmax Hfit) as (k2 & kmax' & Hk2 & _ & Hr2 & Hd2).
  rewrite (stage_delay_draws cfg st w1 Hrate), (stage_delay_draws cfg st w2 Hrate).
  cbv zeta. cbn [fst]. fold s1 s2 max. rewrite Hd1, Hd2.
  set (c1 := if f64_gt s1 max then max else s1) in *.
  set (c2 := if f64_gt s2 max then max else s2) in *.
  assert (Hc : f64_le c1 c2 = true) by (apply clamp_mono; assumption).
  assert (Vc1 : valid_float64 c1 = true) by (subst c1; destruct (f64_gt s1 max); assumption).
  assert (Vc2 : valid_float64 c2 = true) by (subst c2; destruct (f64_gt s2 max); assumption).
  assert (H0c1 : f64_le f64_zero c1 = true) by (subst c1; destruct (f64_gt s1 max); assumption).
  destruct (f64_trunc_le c1 c2 k2 Vc1 Vc2 H0c1 Hc Hk2) as (k1' & Hk1' & Hr).
  rewrite Hk1 in Hk1'. injection Hk1' as <-.
  unfold time_Millisecond. lia.
Qed.

End MoreProperties.

(** ** Closed instances of the further properties *)

(** X3 (instance). [delayed_config] sets neither field: the demo
    backend answers and the lines go to the default logger. *)
Lemma fall_back_example :
  match MakeRoundTripper delayed_config with
  | Err _ => False
  | Ok rt =>
      let out := RoundTrip rt demo_request (demo_world [draw_7_5; draw_600]) in
      fst out = (Some (demo_response demo_request), None)
      /\ net (snd out) = 1%nat
      /\ loggers (trace (snd out)) = ["default"; "default"; "default"; "default"; "default"]
  end.
Proof.
  exact (unset_Transport_and_Logger_fall_back delayed_config demo_request
           (demo_world [draw_7_5; draw_600]) eq_refl eq_refl).
Defined.

(** X6 (instance). Rates 0 and -1: the pending draw stays in the source. *)
Lemma zero_rates_example :
  match MakeRoundTripper undelayed_config with
  | Err _ => False
  | Ok rt =>
      let out := RoundTrip rt demo_request (demo_world [draw_600]) in
      rand_src (snd out) = [draw_600]
      /\ effects (trace (snd out)) = [EvSleep 0; EvRoundTrip demo_request; EvSleep 0]
  end.
Proof.
  exact (zero_rates_leave_source_and_timing_alone undelayed_config demo_request
           (demo_world [draw_600]) eq_refl eq_refl).
Defined.

(** X7 (instance). [delayed_config] with draws 7.5 and 600: sleeps
    within 250 ms and 4 ms. *)
Lemma bounded_delays_example :
  match MakeRoundTripper delayed_config with
  | Err _ => False
  | Ok rt =>
      exists kpre kpost maxpre maxpost : Z,
        sleeps (trace (snd (RoundTrip rt demo_request (demo_world [draw_7_5; draw_600]))))
        = [] ++ [kpre * time_Millisecond; kpost * time_Millisecond]
        /\ f64_trunc (PreDelayMax delayed_config) = Some maxpre
        /\ f64_trunc (PostDelayMax delayed_config) = Some maxpost
        /\ 0 <= kpre <= maxpre
        /\ 0 <= kpost <= maxpost
  end.
Proof.
  exact (round_trip_delays_bounded delayed_config demo_request
           (demo_world [draw_7_5; draw_600]) eq_refl eq_refl eq_refl eq_refl).
Defined.

(** X8 (instance). A maximum of -5 ms and a draw of 600: minus 5 ms. *)
Lemma negative_max_example :
  stage_delay negative_max_config Pre (demo_world [draw_600])
  = (-5 * time_Millisecond, demo_world [])
  /\ -5 <= 0.
Proof.
  apply (negative_max_replaces_every_draw negative_max_config Pre (demo_world [draw_600]) (-5));
    try reflexivity.
  vm_compute. discriminate.
Defined.

(** X9 (instance). Draws of 7.5 and 600 at rate 2 up to 250 ms. *)
Lemma larger_draw_example :
  0 <= fst (stage_delay delayed_config Pre (demo_world [draw_7_5]))
    <= fst (stage_delay delayed_config Pre (demo_world [draw_600])).
Proof.
  exact (larger_draw_never_shorter_delay delayed_config Pre
           (demo_world [draw_7_5]) (demo_world [draw_600]) eq_refl eq_refl eq_refl eq_refl).
Defined.

(** X10 (instance). The request of the examples through the demo proxy. *)
Lemma Rewrite_keeps_example :
  let out := Out (Rewrite demo_proxy {| In := demo_request; Out := demo_request |}) in
  Method out = "GET" /\ Header out = [] /\ Body out = "ping"
  /\ User (Req_URL out) = None /\ Opaque (Req_URL out) = "" /\ Fragment (Req_URL out) = "".
Proof.
  exact (Rewrite_keeps_method_headers_body delayed_config demo_proxy
           {| In := demo_request; Out := demo_request |} eq_refl).
Defined.

(** X11 (instance). A destination that ends in a newline. *)
Lemma newline_destination_example :
  MakeProxy (destination_config newline_destination)
  = Err (url_Error "parse" newline_destination
           (errors_New "net/url: invalid control character in URL")).
Proof.
  exact (control_byte_in_destination_is_rejected (destination_config newline_destination)
           eq_refl).
Defined.

(** X12 (instance). A port with nothing before it. *)
Lemma colon_destination_example :
  exists e, MakeProxy (destination_config ":8080") = Err e.
Proof.
  exact (destination_without_scheme_before_colon_is_rejected
           (destination_config ":8080") "8080" eq_refl).
Defined.
